(** * StellaCradle Mk-1: per-frame joint, arm-lag and habitat dynamics

    A shallow embedding of the frame callbacks of the multi-habitat
    simulator (the first implementation, with [PLANET_DATA] and the
    universal joint) and of the scalar physics read-out of both
    implementations.

    JavaScript numbers are idealised as real numbers: rounding, NaN and
    infinities are not modelled.  [Math.PI], [Math.sqrt], [Math.atan],
    [Math.sin] and [Math.min] are the real [PI], [sqrt], [atan], [sin] and
    [Rmin].  Where the exact value of a computed number is at stake, the
    part of the read-out that uses only [+], [*], [/] and [Math.sqrt] is
    given a second time in binary64 (module [Binary64]), the arithmetic
    JavaScript numbers have.

    A React state cell together with its setter is a field of an explicit
    state record: a frame callback reads the cells as they were at the
    start of the frame and returns the record for the next one.  Mesh
    references are taken to be mounted ([ref.current] is not null). *)

From Stdlib Require Import QArith Qreals Reals Lra List Bool.
From Stdlib Require PrimFloat.
From Stdlib Require Import Lia.
Import ListNotations.
Open Scope R_scope.

(** ** Physical constants and tables *)

Inductive Planet : Type := earth | moon | mars | space.

Definition Planet_eqb (p q : Planet) : bool :=
  match p, q with
  | earth, earth | moon, moon | mars, mars | space, space => true
  | _, _ => false
  end.

(** [PLANET_DATA[planet].gravity] *)
Definition PLANET_DATA_gravity (p : Planet) : R :=
  match p with
  | earth => 981 / 100
  | moon => 162 / 100
  | mars => 371 / 100
  | space => 0
  end.

(** [GRAVITY_CONSTANTS.earth] *)
Definition GRAVITY_CONSTANTS_earth : R := 981 / 100.

Definition ARM_LENGTH : R := 4.
Definition BOX_MASS : R := 50.
Definition ANGULAR_DAMPING : R := 88 / 100.
Definition GRAVITY_ALIGNMENT_SPEED : R := 15 / 10.
Definition CENTRIFUGAL_BULGE_FACTOR : R := 8 / 10.

Inductive HabitatConfig : Type := single | dual | quad | hexa | octa.

(** [HABITAT_CONFIGS[key].count] *)
Definition HABITAT_CONFIGS_count (k : HabitatConfig) : nat :=
  match k with
  | single => 1
  | dual => 2
  | quad => 4
  | hexa => 6
  | octa => 8
  end%nat.

(** The props every component of the mechanism receives from [App]. *)
Record Props : Type := mkProps {
  rpm : R;
  isRotating : bool;
  planet : Planet;
  personMass : R;
  connectingArmLength : R;
  habitatCount : nat;
  rotationLocked : bool
}.

(** [isRotating && rpm > 0], the guard of the three per-module callbacks. *)
Definition spinning (p : Props) : bool :=
  isRotating p && (if Rlt_dec 0 (rpm p) then true else false).

(** [(rpm * 2 * Math.PI) / 60] *)
Definition angularVelocity (p : Props) : R := (rpm p * 2 * PI) / 60.

(** [angularVelocity * angularVelocity * ARM_LENGTH] *)
Definition centrifugalAcceleration (p : Props) : R :=
  angularVelocity p * angularVelocity p * ARM_LENGTH.

(** ** MainRotatingMechanism: the hub *)

(** The frame callback of [MainRotatingMechanism]: [rotation.y] of the hub
    group advances only while [isRotating]. *)
Definition MainRotatingMechanism_frame (p : Props) (delta : R) (rotation_y : R) : R :=
  if isRotating p then rotation_y + angularVelocity p * delta else rotation_y.

(** ** UniversalJointAssembly: the two-axis joint *)

Record XZ : Type := mkXZ { x : R; z : R }.

Record JointState : Type := mkJoint {
  jointAngles : XZ;
  angularVelocities : XZ
}.

(** [useState({ x: 0, z: 0 })] for both cells. *)
Definition JointState_init : JointState := mkJoint (mkXZ 0 0) (mkXZ 0 0).

(** [clampedTargetZ] of the driving branch. *)
Definition clampedTargetZ (p : Props) : R :=
  let targetAngleZ :=
    if Planet_eqb (planet p) space then PI / 2
    else atan (centrifugalAcceleration p / PLANET_DATA_gravity (planet p)) in
  let maxAngle := PI / 2 in
  Rmin targetAngleZ maxAngle.

Definition targetAngleX : R := 0.

(** [massInertiaFactor] and [responseSpeed] of the driving branch.  For a
    total mass of 0 or less the source's [Math.sqrt] and division give
    Infinity or NaN, which the reals do not have: the two definitions
    follow the source for a positive total mass. *)
Definition massInertiaFactor (p : Props) : R :=
  let totalMass := BOX_MASS + personMass p in
  sqrt (totalMass / 50).

Definition responseSpeed (p : Props) : R :=
  GRAVITY_ALIGNMENT_SPEED / massInertiaFactor p.

(** The frame callback of [UniversalJointAssembly]. *)
Definition UniversalJointAssembly_frame (p : Props) (delta : R) (s : JointState)
  : JointState :=
  if spinning p then
    let angleDiffZ := clampedTargetZ p - z (jointAngles s) in
    let angleDiffX := targetAngleX - x (jointAngles s) in
    let newVelocities :=
      mkXZ ((x (angularVelocities s) + angleDiffX * responseSpeed p * delta) * ANGULAR_DAMPING)
           ((z (angularVelocities s) + angleDiffZ * responseSpeed p * delta) * ANGULAR_DAMPING) in
    let newAngles :=
      mkXZ (x (jointAngles s) + x newVelocities * delta)
           (z (jointAngles s) + z newVelocities * delta) in
    mkJoint newAngles newVelocities
  else if Planet_eqb (planet p) space then
    let newVelocities :=
      mkXZ (x (angularVelocities s) * ANGULAR_DAMPING)
           (z (angularVelocities s) * ANGULAR_DAMPING) in
    mkJoint (jointAngles s) newVelocities
  else
    let returnSpeed := GRAVITY_ALIGNMENT_SPEED * (15 / 10) in
    let angleDiffX := - x (jointAngles s) in
    let angleDiffZ := - z (jointAngles s) in
    let newVelocities :=
      mkXZ ((x (angularVelocities s) + angleDiffX * returnSpeed * delta) * ANGULAR_DAMPING)
           ((z (angularVelocities s) + angleDiffZ * returnSpeed * delta) * ANGULAR_DAMPING) in
    let newAngles :=
      mkXZ (x (jointAngles s) + x newVelocities * delta)
           (z (jointAngles s) + z newVelocities * delta) in
    mkJoint newAngles newVelocities.

(** ** ConnectingArmToBox: the inertial lag of the arm *)

(** [clampedLagAngle] of the driving branch. *)
Definition clampedLagAngle (p : Props) : R :=
  let targetLagAngle :=
    if Planet_eqb (planet p) space then
      atan (centrifugalAcceleration p / 10) * CENTRIFUGAL_BULGE_FACTOR * (3 / 10)
    else
      atan (centrifugalAcceleration p / PLANET_DATA_gravity (planet p))
      * CENTRIFUGAL_BULGE_FACTOR in
  let maxLagAngle := PI / 6 in
  Rmin targetLagAngle maxLagAngle.

(** The frame callback of [ConnectingArmToBox] on the cell
    [inertialLagAngle]. *)
Definition ConnectingArmToBox_frame (p : Props) (delta : R) (inertialLagAngle : R) : R :=
  if spinning p then
    let lagSpeed := 2 in
    let angleDiff := clampedLagAngle p - inertialLagAngle in
    inertialLagAngle + angleDiff * lagSpeed * delta
  else if Planet_eqb (planet p) space then
    inertialLagAngle
  else
    let returnSpeed := 3 in
    let angleDiff := - inertialLagAngle in
    inertialLagAngle + angleDiff * returnSpeed * delta.

(** ** BoxHabitat: self-rotation, arrows and the occupant's posture *)

(** [Math.atan2(y, x)] on real arguments. *)
Definition atan2 (y x0 : R) : R :=
  if Rlt_dec 0 x0 then atan (y / x0)
  else if Rlt_dec x0 0 then
    (if Rle_dec 0 y then atan (y / x0) + PI else atan (y / x0) - PI)
  else if Rlt_dec 0 y then PI / 2
  else if Rlt_dec y 0 then - (PI / 2)
  else 0.

(** [THREE.MathUtils.lerp(a, b, t)] *)
Definition lerp (a b t : R) : R := (1 - t) * a + t * b.

(** What the frame callback of [BoxHabitat] writes: [rotation.y] of the box
    group, the cell [boxRotation], visibility and length of the two arrows,
    and the rotation of the occupant.  Positions are set from the box
    geometry alone, identically in both branches, and are left out. *)
Record BoxState : Type := mkBox {
  box_rotation_y : R;
  boxRotation : R;
  gravityArrow_visible : bool;
  gravityArrow_scale_y : R;
  centrifugalArrow_scale_y : R;
  person_rotation_x : R;
  person_rotation_y : R;
  person_rotation_z : R
}.

Definition BoxState_init : BoxState := mkBox 0 0 true 1 1 0 0 0.

(** The frame callback of [BoxHabitat]; [elapsed] is what
    [state.clock.getElapsedTime()] returns in this frame. *)
Definition BoxHabitat_frame (p : Props) (delta elapsed : R) (s : BoxState) : BoxState :=
  let planetGravity := PLANET_DATA_gravity (planet p) in
  if spinning p then
    let gravityAngle :=
      if Planet_eqb (planet p) space then PI / 2
      else atan2 (centrifugalAcceleration p) planetGravity in
    let targetRotation := - angularVelocity p * elapsed in
    let rotationDirection :=
      if Rlt_dec 0 (angularVelocity p) then PI / 2 else - PI / 2 in
    let massEffect := (personMass p / 70) * (1 / 10) in
    let timeEffect := sin (elapsed * 2) * massEffect * (2 / 100) in
    mkBox
      (if rotationLocked p then targetRotation else 0)
      (if rotationLocked p then targetRotation else 0)
      (negb (Planet_eqb (planet p) space))
      (if Planet_eqb (planet p) space then gravityArrow_scale_y s
       else Rmin (planetGravity / GRAVITY_CONSTANTS_earth) 2)
      (Rmin (centrifugalAcceleration p / GRAVITY_CONSTANTS_earth) 3)
      0
      (rotationDirection
       + (if rotationLocked p then boxRotation s else 0)
       + timeEffect)
      (if Planet_eqb (planet p) space then 0 else gravityAngle * (1 / 10))
  else if Planet_eqb (planet p) space then
    mkBox
      (if rotationLocked p then boxRotation s else box_rotation_y s)
      (boxRotation s)
      false 1 (1 / 10)
      (person_rotation_x s) (person_rotation_y s) (person_rotation_z s)
  else
    mkBox
      (lerp (box_rotation_y s) 0 (delta * 3))
      0
      true 1 (1 / 10)
      (lerp (person_rotation_x s) 0 (delta * 3))
      (lerp (person_rotation_y s) 0 (delta * 3))
      (lerp (person_rotation_z s) 0 (delta * 3)).

(** ** The whole mechanism, frame by frame *)

(** One habitat: joint, arm and box. *)
Record Habitat : Type := mkHabitat {
  joint : JointState;
  lag : R;
  box : BoxState
}.

Definition Habitat_init : Habitat := mkHabitat JointState_init 0 BoxState_init.

Definition Habitat_frame (p : Props) (delta elapsed : R) (h : Habitat) : Habitat :=
  mkHabitat (UniversalJointAssembly_frame p delta (joint h))
            (ConnectingArmToBox_frame p delta (lag h))
            (BoxHabitat_frame p delta elapsed (box h)).

(** [Array.from({ length: habitatCount }, ...)] keyed by index: a habitat
    whose index is still in range keeps its cells, a new index mounts with
    initial cells, an index out of range is unmounted. *)
Definition remount (n : nat) (hs : list Habitat) : list Habitat :=
  firstn n hs ++ repeat Habitat_init (n - length hs).

Record Mechanism : Type := mkMechanism {
  hub_rotation_y : R;
  habitats : list Habitat
}.

Definition Mechanism_init : Mechanism := mkMechanism 0 [].

(** One rendered frame: what [App] passes down (props), the frame's [delta]
    and the clock reading.  Each [BoxHabitat] reads the clock itself; the
    readings of one frame are taken to be one and the same number, which
    only the self-rotation of the boxes depends on. *)
Record Frame : Type := mkFrame {
  props : Props;
  delta : R;
  elapsed : R
}.

Definition Mechanism_frame (f : Frame) (m : Mechanism) : Mechanism :=
  mkMechanism
    (MainRotatingMechanism_frame (props f) (delta f) (hub_rotation_y m))
    (map (Habitat_frame (props f) (delta f) (elapsed f))
         (remount (habitatCount (props f)) (habitats m))).

(** A run: the frames in the order they are rendered. *)
Definition run (fs : list Frame) (m : Mechanism) : Mechanism :=
  fold_left (fun acc f => Mechanism_frame f acc) fs m.

Definition run_joint (fs : list (Props * R)) (s : JointState) : JointState :=
  fold_left (fun acc f => UniversalJointAssembly_frame (fst f) (snd f) acc) fs s.

Definition run_lag (fs : list (Props * R)) (l : R) : R :=
  fold_left (fun acc f => ConnectingArmToBox_frame (fst f) (snd f) acc) fs l.

(** The clock of the canvas: each frame's [delta] is added to the elapsed
    time, whether or not the mechanism rotates.  [clocked t0 inputs] stamps
    a list of (props, delta) with the readings of a clock that shows [t0]
    before the first of them. *)
Fixpoint clocked (t0 : R) (inputs : list (Props * R)) : list Frame :=
  match inputs with
  | [] => []
  | (p, d) :: rest => mkFrame p d (t0 + d) :: clocked (t0 + d) rest
  end.

(** ** The physics read-out of [App]

    A division whose divisor is zero is made visible: the read-out is
    computed in the option monad, and [None] means that some division of
    the source had a zero divisor. *)

Definition checked_div (a b : R) : option R :=
  if Req_dec_T b 0 then None else Some (a / b).

Definition bind {A B : Type} (m : option A) (k : A -> option B) : option B :=
  match m with
  | Some a => k a
  | None => None
  end.

Notation "v <- m ;; k" := (bind m (fun v => k))
  (at level 61, m at next level, right associativity).
Notation "a /? b" := (checked_div a b) (at level 40, left associativity).

Record Report : Type := mkReport {
  report_centrifugalAcceleration : R;
  report_totalGravity : R;
  report_artificialGravityRatio : R;
  report_idealAngle : R;
  report_gravityAngle : R;
  report_inertialLagAngle : R
}.

(** The computation at the head of [App] (multi-habitat simulator). *)
Definition App_physics (p : Props) : option Report :=
  let planetGravity := PLANET_DATA_gravity (planet p) in
  angularVelocity <- (rpm p * 2 * PI) /? 60 ;;
  let centrifugalAcceleration :=
    if isRotating p then angularVelocity * angularVelocity * ARM_LENGTH else 0 in
  let totalMass := BOX_MASS + personMass p in
  let gravitationalForce := totalMass * planetGravity in
  let centrifugalForce :=
    if isRotating p then totalMass * centrifugalAcceleration else 0 in
  let totalForce :=
    if isRotating p then
      (if Planet_eqb (planet p) space then centrifugalForce
       else sqrt (centrifugalForce * centrifugalForce
                  + gravitationalForce * gravitationalForce))
    else gravitationalForce in
  totalGravity <- totalForce /? totalMass ;;
  artificialGravityRatio <- totalGravity /? GRAVITY_CONSTANTS_earth ;;
  idealAngle <-
    (if isRotating p then
       (if Planet_eqb (planet p) space then Some 90
        else q <- centrifugalAcceleration /? planetGravity ;;
             d <- 180 /? PI ;;
             Some (atan q * d))
     else Some 0) ;;
  gravityAngle <-
    (if isRotating p then
       (if Planet_eqb (planet p) space then Some 90
        else d <- 180 /? PI ;;
             Some (atan2 centrifugalAcceleration planetGravity * d))
     else Some 0) ;;
  inertialLagAngle <-
    (if isRotating p then
       (if Planet_eqb (planet p) space then
          q <- centrifugalAcceleration /? 10 ;;
          d <- 180 /? PI ;;
          Some (atan q * CENTRIFUGAL_BULGE_FACTOR * (3 / 10) * d)
        else
          q <- centrifugalAcceleration /? planetGravity ;;
          d <- 180 /? PI ;;
          Some (atan q * CENTRIFUGAL_BULGE_FACTOR * d))
     else Some 0) ;;
  Some (mkReport centrifugalAcceleration totalGravity artificialGravityRatio
                 idealAngle gravityAngle inertialLagAngle).

(** The second implementation (the hinged habitats): its own constant
    table and the computation at the head of its [App]. *)
Module Hinge.

Definition PHYSICS_EARTH_GRAVITY : R := 981 / 100.
Definition PHYSICS_MOON_GRAVITY : R := 162 / 100.
Definition PHYSICS_MARS_GRAVITY : R := 371 / 100.
Definition PHYSICS_SPACE_GRAVITY : R := 0.
Definition PHYSICS_ARM_LENGTH : R := 4.
Definition PHYSICS_MAX_HINGE_ANGLE : R := 60.

(** [PLANET_CONFIGS[planet].gravity] *)
Definition PLANET_CONFIGS_gravity (p : Planet) : R :=
  match p with
  | earth => PHYSICS_EARTH_GRAVITY
  | moon => PHYSICS_MOON_GRAVITY
  | mars => PHYSICS_MARS_GRAVITY
  | space => PHYSICS_SPACE_GRAVITY
  end.

Record Report : Type := mkReport {
  report_centrifugalAcceleration : R;
  report_totalGravity : R;
  report_hingeAngle : R;
  report_gravityAngle : R
}.

Definition App_physics (rpm : R) (planet : Planet) : option Report :=
  let planetGravity := PLANET_CONFIGS_gravity planet in
  angularVelocity <- (rpm * 2 * PI) /? 60 ;;
  let centrifugalAcceleration := angularVelocity ^ 2 * PHYSICS_ARM_LENGTH in
  let totalGravity := sqrt (centrifugalAcceleration ^ 2 + planetGravity ^ 2) in
  idealHingeAngle <-
    (if Rlt_dec 0 planetGravity then
       q <- centrifugalAcceleration /? planetGravity ;;
       d <- 180 /? PI ;;
       Some (atan q * d)
     else Some (if Rlt_dec 0 centrifugalAcceleration
                then PHYSICS_MAX_HINGE_ANGLE else 0)) ;;
  let hingeAngle := Rmin idealHingeAngle PHYSICS_MAX_HINGE_ANGLE in
  gravityAngle <-
    (if Rlt_dec 0 planetGravity then
       q <- centrifugalAcceleration /? planetGravity ;;
       Some (atan q)
     else Some (if Rlt_dec 0 centrifugalAcceleration then PI / 2 else 0)) ;;
  Some (mkReport centrifugalAcceleration totalGravity hingeAngle gravityAngle).

End Hinge.

(** ** The read-out in binary64

    Totals and accelerations at the head of [App] (multi-habitat
    simulator), on primitive floats: IEEE 754 binary64 with rounding to
    nearest, as JavaScript numbers.  A decimal literal denotes the nearest
    binary64 value, as in JavaScript; [Math.sqrt] is taken to be the
    correctly rounded square root. *)
Module Binary64.

Import PrimFloat.
#[local] Set Warnings "-inexact-float".
#[local] Open Scope float_scope.

Definition Math_PI : float := 3.141592653589793.

Definition PLANET_DATA_gravity (p : Planet) : float :=
  match p with
  | earth => 9.81
  | moon => 1.62
  | mars => 3.71
  | space => 0
  end.

Definition GRAVITY_CONSTANTS_earth : float := 9.81.
Definition ARM_LENGTH : float := 4.
Definition BOX_MASS : float := 50.

Record Report : Type := mkReport {
  report_centrifugalAcceleration : float;
  report_totalGravity : float;
  report_artificialGravityRatio : float
}.

Definition App_physics (rpm : float) (isRotating : bool) (planet : Planet)
    (personMass : float) : Report :=
  let planetGravity := PLANET_DATA_gravity planet in
  let angularVelocity := (rpm * 2 * Math_PI) / 60 in
  let centrifugalAcceleration :=
    if isRotating then angularVelocity * angularVelocity * ARM_LENGTH else 0 in
  let totalMass := BOX_MASS + personMass in
  let gravitationalForce := totalMass * planetGravity in
  let centrifugalForce :=
    if isRotating then totalMass * centrifugalAcceleration else 0 in
  let totalForce :=
    if isRotating then
      (if Planet_eqb planet space then centrifugalForce
       else sqrt (centrifugalForce * centrifugalForce
                  + gravitationalForce * gravitationalForce))
    else gravitationalForce in
  let totalGravity := totalForce / totalMass in
  let artificialGravityRatio := totalGravity / GRAVITY_CONSTANTS_earth in
  mkReport centrifugalAcceleration totalGravity artificialGravityRatio.

(** [a === b] on numbers. *)
Definition same (a b : float) : bool := eqb a b.

(** [a] is [b] or one of its two neighbours in binary64. *)
Definition adjacent (a b : float) : bool :=
  same a b || same a (next_up b) || same a (next_down b).

(** The values the occupant-mass slider offers: 40 to 120 in steps of 5. *)
Definition slider_personMass : list float :=
  [40; 45; 50; 55; 60; 65; 70; 75; 80; 85; 90; 95; 100; 105; 110; 115; 120].

End Binary64.

(** ** The model of the specification

    The quantities of the specification, written from its words, to be
    compared with what the frame callbacks compute. *)
Module Spec.

Definition gravity (e : Planet) : R := PLANET_DATA_gravity e.

Definition centrifugalAccel (rpm : R) : R := Rsqr (rpm * 2 * PI / 60) * 4.

Definition clamp (lo hi v : R) : R := Rmax lo (Rmin v hi).

(** Target Z-angle of the joint while spinning. *)
Definition targetZ (e : Planet) (rpm : R) : R :=
  match e with
  | space => PI / 2
  | _ => clamp 0 (PI / 2) (atan (centrifugalAccel rpm / gravity e))
  end.

(** Active target of the arm lag. *)
Definition lagTarget (e : Planet) (rpm : R) : R :=
  Rmin (match e with
        | space => atan (centrifugalAccel rpm / 10) * (8 / 10) * (3 / 10)
        | _ => atan (centrifugalAccel rpm / gravity e) * (8 / 10)
        end)
       (PI / 6).

(** [velocity <- (velocity + (target - angle) * speed * dt) * 0.88]
    followed by [angle <- angle + velocity * dt]; the result is the pair
    (angle, velocity). *)
Definition damped (target speed dt angle velocity : R) : R * R :=
  let velocity' := (velocity + (target - angle) * speed * dt) * (88 / 100) in
  (angle + velocity' * dt, velocity').

(** A configuration error: no module, or a negative mass or length. *)
Definition config_error (p : Props) : Prop :=
  habitatCount p = 0%nat \/ personMass p < 0 \/ connectingArmLength p < 0.

(** The bounds on the state of one module. *)
Definition bounded (h : Habitat) : Prop :=
  Rabs (x (jointAngles (joint h))) <= PI / 2
  /\ Rabs (z (jointAngles (joint h))) <= PI / 2
  /\ 0 <= lag h <= PI / 6.

End Spec.

(** ** The state of [App] and its handlers *)

Record AppState : Type := mkApp {
  app_rpm : R;
  app_isRotating : bool;
  app_planet : Planet;
  app_personMass : R;
  app_connectingArmLength : R;
  app_habitatConfig : HabitatConfig;
  app_rotationLocked : bool
}.

(** The initial values of the [useState] cells of [App]. *)
Definition App_init : AppState := mkApp 20 false earth 70 (8 / 10) dual false.

(** The events of the control panel that reach the mechanism; a slider
    event carries [Number(e.target.value)]. *)
Inductive Event : Type :=
| ClickPlayPause
| SelectPlanet (e : Planet)
| SelectHabitatConfig (k : HabitatConfig)
| ClickRotationLock
| SlidePersonMass (v : R)
| SlideConnectingArmLength (v : R)
| SlideRpm (v : R).

(** The handlers: each stores the value it is given, none checks it. *)
Definition App_handle (ev : Event) (a : AppState) : AppState :=
  match ev with
  | ClickPlayPause =>
      mkApp (app_rpm a) (negb (app_isRotating a)) (app_planet a) (app_personMass a)
            (app_connectingArmLength a) (app_habitatConfig a) (app_rotationLocked a)
  | SelectPlanet e =>
      mkApp (app_rpm a) (app_isRotating a) e (app_personMass a)
            (app_connectingArmLength a) (app_habitatConfig a) (app_rotationLocked a)
  | SelectHabitatConfig k =>
      mkApp (app_rpm a) (app_isRotating a) (app_planet a) (app_personMass a)
            (app_connectingArmLength a) k (app_rotationLocked a)
  | ClickRotationLock =>
      mkApp (app_rpm a) (app_isRotating a) (app_planet a) (app_personMass a)
            (app_connectingArmLength a) (app_habitatConfig a)
            (negb (app_rotationLocked a))
  | SlidePersonMass v =>
      mkApp (app_rpm a) (app_isRotating a) (app_planet a) v
            (app_connectingArmLength a) (app_habitatConfig a) (app_rotationLocked a)
  | SlideConnectingArmLength v =>
      mkApp (app_rpm a) (app_isRotating a) (app_planet a) (app_personMass a)
            v (app_habitatConfig a) (app_rotationLocked a)
  | SlideRpm v =>
      mkApp v (app_isRotating a) (app_planet a) (app_personMass a)
            (app_connectingArmLength a) (app_habitatConfig a) (app_rotationLocked a)
  end.

Definition App_events (evs : list Event) (a : AppState) : AppState :=
  fold_left (fun acc ev => App_handle ev acc) evs a.

(** The props [App] hands to [MainRotatingMechanism]. *)
Definition App_props (a : AppState) : Props :=
  mkProps (app_rpm a) (app_isRotating a) (app_planet a) (app_personMass a)
          (app_connectingArmLength a)
          (HABITAT_CONFIGS_count (app_habitatConfig a))
          (app_rotationLocked a).

(** The [min] and [max] attributes of the three sliders. *)
Definition within_slider (ev : Event) : Prop :=
  match ev with
  | SlidePersonMass v => 40 <= v <= 120
  | SlideConnectingArmLength v => 3 / 10 <= v <= 2
  | SlideRpm v => 0 <= v <= 60
  | _ => True
  end.

(** ** Invariants of the solvers *)

(** One axis of the joint swinging inside [0, hi]: the velocity, taken for
    one second, would not carry the angle out of the interval. *)
Definition swings_within (hi angle velocity : R) : Prop :=
  0 <= angle <= hi /\ - angle <= velocity <= hi - angle.

(** One axis returning to 0 from the side of [angle]: the velocity points
    to 0 and, taken for one second, would not carry the angle past 0. *)
Definition returning (angle velocity : R) : Prop :=
  (0 <= angle /\ - angle <= velocity <= 0)
  \/ (angle <= 0 /\ 0 <= velocity <= - angle).

Definition Habitat_inv (h : Habitat) : Prop :=
  x (jointAngles (joint h)) = 0 /\ x (angularVelocities (joint h)) = 0
  /\ swings_within (PI / 2) (z (jointAngles (joint h)))
                   (z (angularVelocities (joint h)))
  /\ 0 <= lag h <= PI / 6.

(** The damped update on rational multiples of a scale: an axis whose
    angle, velocity and target are [a * h], [b * h] and [target * h] for a
    real [h] is followed on the rational coefficients alone, which
    compute. *)
Definition Qdamped (target speed dt : Q) (s : Q * Q) : Q * Q :=
  let velocity' :=
    Qred ((snd s + (target - fst s) * speed * dt) * (88 # 100))%Q in
  (Qred (fst s + velocity' * dt)%Q, velocity').

Definition Qrun (n : nat) (target speed dt : Q) (s : Q * Q) : Q * Q :=
  Nat.iter n (Qdamped target speed dt) s.

(** A frame at 25 frames per second or faster, with an occupant of
    non-negative mass. *)
Definition fine_frame (f : Frame) : Prop :=
  0 <= delta f <= 1 / 25 /\ 0 <= personMass (props f).

(** A frame in which the mechanism is stopped under gravity. *)
Definition gravity_stop (f : Props * R) : Prop :=
  planet (fst f) <> space /\ isRotating (fst f) = false
  /\ 0 <= snd f <= 1 / 25.

(** A stopped frame under gravity whose step is at least [dmin]. *)
Definition brisk_stop (dmin : R) (f : Props * R) : Prop :=
  gravity_stop f /\ dmin <= snd f.

(** One axis of the joint over a run of stopped frames under gravity, as
    the pair (angle, velocity): the damped update toward 0 at the speed
    GRAVITY_ALIGNMENT_SPEED * 1.5 = 9/4, one step per frame. *)
Definition settle_run (dts : list R) (av : R * R) : R * R :=
  fold_left (fun acc dt => Spec.damped 0 (9 / 4) dt (fst acc) (snd acc)) dts av.

(** ** Geometry of the hanging box (multi-habitat simulator) *)

Inductive BoxType : Type := cube | rectangle | sphere.

(** [BOX_TYPES[boxType].dimensions] *)
Definition BOX_TYPES_dimensions (t : BoxType) : R * R * R :=
  match t with
  | cube => (12 / 10, 12 / 10, 12 / 10)
  | rectangle => (18 / 10, 12 / 10, 12 / 10)
  | sphere => (12 / 10, 12 / 10, 12 / 10)
  end.

(** [dimensions[1]] *)
Definition dim1 (d : R * R * R) : R := snd (fst d).

(** [BOX_TYPES[boxType].dimensions.map(dim => dim * boxSize)], the
    [boxDimensions] of [BoxHabitat]. *)
Definition boxDimensions (t : BoxType) (boxSize : R) : R * R * R :=
  let '(a, b, c) := BOX_TYPES_dimensions t in
  (a * boxSize, b * boxSize, c * boxSize).

(** In [ConnectingArmToBox]: the y of the joint at the tip of the arm and
    the y of the group that holds the box, both in the frame of the arm. *)
Definition armTip_y (connectingArmLength : R) : R := - connectingArmLength.

Definition boxGroup_y (connectingArmLength : R) (t : BoxType) (boxSize : R) : R :=
  - connectingArmLength
  - (match t with
     | sphere => boxSize / 2
     | _ => dim1 (BOX_TYPES_dimensions t) / 2
     end).

(** In [BoxHabitat]: the y, within the group of the box, of the point on
    its ceiling where the arm is fixed. *)
Definition connectionPoint_y (t : BoxType) (boxSize : R) : R :=
  match t with
  | sphere => boxSize / 2
  | _ => dim1 (boxDimensions t boxSize) / 2
  end.

(** ** The scene of the hinged implementation *)
Module HingeScene.

(** [RotatingArmSystem]: the cell [currentRotation] and [rotation.y] of
    the group. *)
Record ArmSystem : Type := mkArmSystem {
  currentRotation : R;
  rotation_y : R
}.

Definition ArmSystem_init : ArmSystem := mkArmSystem 0 0.

Record ArmFrame : Type := mkArmFrame {
  arm_rpm : R;
  arm_isRotating : bool;
  arm_rotationFixed : bool;
  arm_delta : R
}.

(** The frame callback of [RotatingArmSystem]: the updater adds to the
    cell, the group receives the value the cell had when the frame began. *)
Definition RotatingArmSystem_frame (f : ArmFrame) (s : ArmSystem) : ArmSystem :=
  if arm_isRotating f then
    let angularVelocity := (arm_rpm f * 2 * PI) / 60 in
    let rotationDelta := angularVelocity * arm_delta f in
    mkArmSystem (currentRotation s + rotationDelta)
                (if arm_rotationFixed f then rotation_y s else currentRotation s)
  else s.

Definition ArmSystem_run (fs : list ArmFrame) (s : ArmSystem) : ArmSystem :=
  fold_left (fun acc f => RotatingArmSystem_frame f acc) fs s.

(** What the rotating frames of a run add up to. *)
Fixpoint turned (fs : list ArmFrame) : R :=
  match fs with
  | [] => 0
  | f :: rest =>
      (if arm_isRotating f then (arm_rpm f * 2 * PI) / 60 * arm_delta f else 0)
      + turned rest
  end.

(** [GravityVector]: [arrowLength] and [endPosition]. *)
Definition arrowLength (magnitude : R) : R := Rmin (magnitude * (3 / 10)) 2.

Definition endPosition (position direction : R * R * R) (magnitude : R) : R * R * R :=
  let '(px, py, pz) := position in
  let '(dx, dy, dz) := direction in
  (px + dx * arrowLength magnitude,
   py + dy * arrowLength magnitude,
   pz + dz * arrowLength magnitude).

(** The arrow [Habitat] draws: from the origin of the box, along
    (sin gravityAngle, -cos gravityAngle, 0), for [totalGravity / 10]. *)
Definition Habitat_gravity_arrow (gravityAngle totalGravity : R) : R * R * R :=
  endPosition (0, 0, 0) (sin gravityAngle, - cos gravityAngle, 0) (totalGravity / 10).

(** The cells of [App] that reach the scene, and its control functions. *)
Record AppState : Type := mkApp {
  rpm : R;
  isRotating : bool;
  planet : Planet;
  numHabitats : nat;
  rotationFixed : bool
}.

Definition App_init : AppState := mkApp 0 false earth 2 false.

Definition handleStart (a : AppState) : AppState :=
  mkApp (rpm a) true (planet a) (numHabitats a) (rotationFixed a).

Definition handleStop (a : AppState) : AppState :=
  mkApp (rpm a) false (planet a) (numHabitats a) (rotationFixed a).

Definition handleReset (a : AppState) : AppState :=
  mkApp 0 false (planet a) (numHabitats a) (rotationFixed a).

(** The frame the arm system sees for a state of [App]. *)
Definition App_armFrame (a : AppState) (delta : R) : ArmFrame :=
  mkArmFrame (rpm a) (isRotating a) (rotationFixed a) delta.

End HingeScene.

(** ** Basic facts *)

Lemma spinning_true (p : Props) :
  isRotating p = true -> 0 < rpm p -> spinning p = true.
Proof.
  intros Hact Hrpm. unfold spinning. rewrite Hact.
  destruct (Rlt_dec 0 (rpm p)); [reflexivity | contradiction].
Qed.

Lemma spinning_stopped (p : Props) : isRotating p = false -> spinning p = false.
Proof. intros H. unfold spinning. now rewrite H. Qed.

Lemma spinning_zero_rpm (p : Props) : rpm p = 0 -> spinning p = false.
Proof.
  intros H. unfold spinning. rewrite H.
  destruct (Rlt_dec 0 0) as [Hlt | _]; [lra | apply andb_false_r].
Qed.

Lemma centrifugalAcceleration_spec (p : Props) :
  centrifugalAcceleration p = Spec.centrifugalAccel (rpm p).
Proof. reflexivity. Qed.

Lemma centrifugalAcceleration_nonneg (p : Props) : 0 <= centrifugalAcceleration p.
Proof.
  unfold centrifugalAcceleration, ARM_LENGTH.
  pose proof (Rle_0_sqr (angularVelocity p)) as H. unfold Rsqr in H. lra.
Qed.

Lemma gravity_pos (e : Planet) : e <> space -> 0 < PLANET_DATA_gravity e.
Proof. destruct e; simpl; intros H; try lra. now elim H. Qed.

Lemma Planet_eqb_space (e : Planet) : Planet_eqb e space = true <-> e = space.
Proof. destruct e; simpl; split; congruence. Qed.

Lemma atan_nonneg (v : R) : 0 <= v -> 0 <= atan v.
Proof.
  intros [Hlt | <-].
  - left. rewrite <- atan_0. now apply atan_increasing.
  - rewrite atan_0. lra.
Qed.

Lemma atan_ratio_bounds (a g : R) :
  0 <= a -> 0 < g -> 0 <= atan (a / g) < PI / 2.
Proof.
  intros Ha Hg. split.
  - apply atan_nonneg. apply Rmult_le_pos; [assumption |].
    left. now apply Rinv_0_lt_compat.
  - apply atan_bound.
Qed.

(** ** The joint in DRIVE mode *)

Lemma drive_frame (p : Props) (dt : R) (s : JointState) :
  isRotating p = true -> 0 < rpm p ->
  let s' := UniversalJointAssembly_frame p dt s in
  (x (jointAngles s'), x (angularVelocities s'))
    = Spec.damped 0 (responseSpeed p) dt
        (x (jointAngles s)) (x (angularVelocities s))
  /\ (z (jointAngles s'), z (angularVelocities s'))
    = Spec.damped (clampedTargetZ p) (responseSpeed p) dt
        (z (jointAngles s)) (z (angularVelocities s)).
Proof.
  intros Hact Hrpm. cbv zeta.
  unfold UniversalJointAssembly_frame. rewrite (spinning_true p Hact Hrpm).
  split; reflexivity.
Qed.

(** C4: while driving (rotating, with a positive rate) a frame computes
    massInertiaFactor = sqrt((50 + personMass) / 50) and
    responseSpeed = 1.5 / massInertiaFactor, then on each axis
    velocity <- (velocity + (target - angle) * responseSpeed * dt) * 0.88
    followed by angle <- angle + velocity * dt, with target 0 on X and the
    clamped target on Z, each axis on its own. *)
Theorem drive_update_formula (p : Props) (dt : R) (s : JointState) :
  isRotating p = true -> 0 < rpm p ->
  let massInertiaFactor := sqrt ((50 + personMass p) / 50) in
  let responseSpeed := (15 / 10) / massInertiaFactor in
  let s' := UniversalJointAssembly_frame p dt s in
  (x (jointAngles s'), x (angularVelocities s'))
    = Spec.damped 0 responseSpeed dt
        (x (jointAngles s)) (x (angularVelocities s))
  /\ (z (jointAngles s'), z (angularVelocities s'))
    = Spec.damped (clampedTargetZ p) responseSpeed dt
        (z (jointAngles s)) (z (angularVelocities s)).
Proof.
  intros Hact Hrpm. exact (drive_frame p dt s Hact Hrpm).
Qed.

Lemma drive_update_formula_witness :
  let p := mkProps 20 true earth 70 (8 / 10) 2 false in
  (x (jointAngles (UniversalJointAssembly_frame p (1 / 60) JointState_init)),
   x (angularVelocities (UniversalJointAssembly_frame p (1 / 60) JointState_init)))
  = Spec.damped 0 ((15 / 10) / sqrt ((50 + 70) / 50)) (1 / 60) 0 0.
Proof.
  intro p.
  refine (proj1 (drive_update_formula p (1 / 60) JointState_init _ _)).
  - reflexivity.
  - simpl. lra.
Defined.

(** The clamped target of the source is the target of the specification:
    under gravity atan(centrifugalAccel / gravity) already lies in
    [0, PI/2), so capping it from above alone clamps it to [0, PI/2]. *)
Lemma clampedTargetZ_spec (p : Props) :
  clampedTargetZ p = Spec.targetZ (planet p) (rpm p).
Proof.
  unfold clampedTargetZ, Spec.targetZ, Spec.clamp, Spec.gravity.
  rewrite centrifugalAcceleration_spec.
  destruct (planet p) eqn:E; simpl;
    try (rewrite Rmax_right; [reflexivity |];
         apply Rmin_glb; [| pose proof PI_RGT_0; lra];
         apply atan_nonneg; rewrite <- centrifugalAcceleration_spec;
         apply Rmult_le_pos;
         [apply centrifugalAcceleration_nonneg
         | left; apply Rinv_0_lt_compat; lra]).
  apply Rmin_left; lra.
Qed.

Lemma targetZ_bounds (e : Planet) (r : R) : 0 <= Spec.targetZ e r <= PI / 2.
Proof.
  unfold Spec.targetZ, Spec.clamp. pose proof PI_RGT_0.
  destruct e;
    try (split; [apply Rmax_l | apply Rmax_lub; [lra | apply Rmin_r]]).
  lra.
Qed.

(** C5: in a frame that drives (rotating, with a positive rate) the joint
    steers to the target 0 on X and, on Z, to PI/2 in Vacuum and to
    atan(centrifugalAccel / gravity) clamped to [0, PI/2] under gravity,
    with centrifugalAccel = (rpm * 2 PI / 60)^2 * 4. *)
Theorem drive_target (p : Props) (dt : R) (s : JointState) :
  isRotating p = true -> 0 < rpm p ->
  let s' := UniversalJointAssembly_frame p dt s in
  (x (jointAngles s'), x (angularVelocities s'))
    = Spec.damped 0 (responseSpeed p) dt
        (x (jointAngles s)) (x (angularVelocities s))
  /\ (z (jointAngles s'), z (angularVelocities s'))
    = Spec.damped (Spec.targetZ (planet p) (rpm p)) (responseSpeed p) dt
        (z (jointAngles s)) (z (angularVelocities s))
  /\ Spec.targetZ space (rpm p) = PI / 2
  /\ 0 <= Spec.targetZ (planet p) (rpm p) <= PI / 2.
Proof.
  intros Hact Hrpm. cbv zeta.
  unfold UniversalJointAssembly_frame. rewrite (spinning_true p Hact Hrpm).
  rewrite clampedTargetZ_spec.
  repeat split; try reflexivity; apply targetZ_bounds.
Qed.

Lemma drive_target_witness :
  let p := mkProps 30 true space 70 (8 / 10) 2 false in
  (z (jointAngles (UniversalJointAssembly_frame p (1 / 60) JointState_init)),
   z (angularVelocities (UniversalJointAssembly_frame p (1 / 60) JointState_init)))
  = Spec.damped (PI / 2) (responseSpeed p) (1 / 60) 0 0.
Proof.
  intro p.
  refine (proj1 (proj2 (drive_target p (1 / 60) JointState_init _ _))).
  - reflexivity.
  - simpl. lra.
Defined.

(** ** The arm lag in DRIVE mode *)

(** C6: while rotating with a positive rate the lag target is
    atan(centrifugalAccel / 10) * 0.8 * 0.3 in Vacuum and
    atan(centrifugalAccel / gravity) * 0.8 under gravity, capped at PI/6,
    and the lag becomes lag + (target - lag) * 2.0 * dt. *)
Theorem lag_drive_update (p : Props) (dt l : R) :
  isRotating p = true -> 0 < rpm p ->
  ConnectingArmToBox_frame p dt l
  = l + (Spec.lagTarget (planet p) (rpm p) - l) * 2 * dt
  /\ Spec.lagTarget (planet p) (rpm p) <= PI / 6.
Proof.
  intros Hact Hrpm. split.
  - unfold ConnectingArmToBox_frame. rewrite (spinning_true p Hact Hrpm).
    cbv zeta. unfold clampedLagAngle, Spec.lagTarget, Spec.gravity.
    rewrite centrifugalAcceleration_spec.
    unfold CENTRIFUGAL_BULGE_FACTOR.
    destruct (planet p); reflexivity.
  - apply Rmin_r.
Qed.

Lemma lag_drive_update_witness :
  ConnectingArmToBox_frame (mkProps 20 true space 70 (8 / 10) 2 false) (1 / 60) 0
  = 0 + (Spec.lagTarget space 20 - 0) * 2 * (1 / 60).
Proof.
  refine (proj1 (lag_drive_update
                   (mkProps 20 true space 70 (8 / 10) 2 false) (1 / 60) 0 _ _)).
  - reflexivity.
  - simpl. lra.
Defined.

(** ** Stopping in Vacuum *)

Lemma vacuum_stop_frame (p : Props) (dt : R) (s : JointState) :
  planet p = space -> isRotating p = false ->
  UniversalJointAssembly_frame p dt s
  = mkJoint (jointAngles s)
            (mkXZ (x (angularVelocities s) * (88 / 100))
                  (z (angularVelocities s) * (88 / 100))).
Proof.
  intros Hpl Hact. unfold UniversalJointAssembly_frame.
  rewrite (spinning_stopped p Hact), Hpl. reflexivity.
Qed.

(** C3: in Vacuum, over any run of frames in which the mechanism is not
    rotating, both joint angles stay exactly what they were, and each
    frame multiplies both angular velocities by 0.88. *)
Theorem vacuum_hold_on_stop (fs : list (Props * R)) (s : JointState) :
  Forall (fun f => planet (fst f) = space /\ isRotating (fst f) = false) fs ->
  jointAngles (run_joint fs s) = jointAngles s
  /\ x (angularVelocities (run_joint fs s))
     = x (angularVelocities s) * (88 / 100) ^ length fs
  /\ z (angularVelocities (run_joint fs s))
     = z (angularVelocities s) * (88 / 100) ^ length fs.
Proof.
  intros Hfs. revert s.
  induction Hfs as [| [p dt] fs [Hpl Hact] _ IH]; intros s.
  - simpl. repeat split; lra.
  - unfold run_joint in *. cbn [fold_left fst snd length].
    destruct (IH (UniversalJointAssembly_frame p dt s)) as (Ha & Hx & Hz).
    rewrite Ha, Hx, Hz.
    rewrite (vacuum_stop_frame p dt s Hpl Hact). cbn [jointAngles angularVelocities x z].
    repeat split; simpl; ring.
Qed.

Lemma vacuum_hold_on_stop_witness :
  let p := mkProps 20 false space 70 (8 / 10) 2 false in
  let s := mkJoint (mkXZ 0 1) (mkXZ 0 (1 / 2)) in
  jointAngles (run_joint [(p, 1 / 60); (p, 1 / 30)] s) = mkXZ 0 1.
Proof.
  intros p s.
  refine (proj1 (vacuum_hold_on_stop [(p, 1 / 60); (p, 1 / 30)] s _)).
  repeat constructor.
Defined.

(** ** Zero spin while rotating *)

(** C10: with rpm = 0, a frame with [isRotating = true] updates the joint,
    the arm lag and the habitat exactly as a frame with
    [isRotating = false] does, all other inputs being equal. *)
Theorem zero_rpm_is_stopped
    (e : Planet) (mass arm : R) (n : nat) (locked : bool)
    (dt t : R) (h : Habitat) :
  Habitat_frame (mkProps 0 true e mass arm n locked) dt t h
  = Habitat_frame (mkProps 0 false e mass arm n locked) dt t h.
Proof.
  unfold Habitat_frame, UniversalJointAssembly_frame, ConnectingArmToBox_frame,
    BoxHabitat_frame.
  rewrite (spinning_zero_rpm (mkProps 0 true e mass arm n locked) eq_refl).
  rewrite (spinning_zero_rpm (mkProps 0 false e mass arm n locked) eq_refl).
  reflexivity.
Qed.

(** ** The read-out at zero spin *)

Lemma checked_div_some (a b : R) : b <> 0 -> a /? b = Some (a / b).
Proof.
  intros Hb. unfold checked_div.
  destruct (Req_dec_T b 0); [contradiction | reflexivity].
Qed.

Lemma zero_rate : (0 * 2 * PI) /? 60 = Some 0.
Proof. rewrite checked_div_some by lra. f_equal. lra. Qed.

(** In exact arithmetic both read-outs are right at rpm = 0, with no zero
    divisor, whenever the total mass is positive. *)
Lemma zero_spin_exact (p : Props) :
  rpm p = 0 -> 0 < BOX_MASS + personMass p ->
  (exists r,
      App_physics p = Some r
      /\ report_centrifugalAcceleration r = 0
      /\ report_totalGravity r = PLANET_DATA_gravity (planet p))
  /\ (exists r,
      Hinge.App_physics (rpm p) (planet p) = Some r
      /\ Hinge.report_centrifugalAcceleration r = 0
      /\ Hinge.report_totalGravity r = Hinge.PLANET_CONFIGS_gravity (planet p))
  /\ PLANET_DATA_gravity space = 0
  /\ Hinge.PLANET_CONFIGS_gravity space = 0.
Proof.
  intros Hrpm Hmass.
  assert (Hpi : PI <> 0) by (pose proof PI_RGT_0; lra).
  assert (Hm : BOX_MASS + personMass p <> 0) by lra.
  assert (He : GRAVITY_CONSTANTS_earth <> 0) by (unfold GRAVITY_CONSTANTS_earth; lra).
  split; [| split; [| split; reflexivity]].
  - unfold App_physics. rewrite Hrpm, zero_rate. cbn [bind].
    destruct (isRotating p), (planet p);
      cbn [Planet_eqb PLANET_DATA_gravity];
      replace (0 * 0 * ARM_LENGTH) with 0 by ring;
      rewrite ?Rmult_0_r, ?Rplus_0_l;
      try rewrite sqrt_square by (apply Rmult_le_pos; lra);
      rewrite (checked_div_some _ _ Hm); cbn [bind];
      rewrite (checked_div_some _ _ He); cbn [bind];
      try rewrite (checked_div_some 0 (_ / 100)) by lra;
      try rewrite (checked_div_some 0 10) by lra;
      try rewrite (checked_div_some 180 PI Hpi);
      cbn [bind];
      eexists; (split; [reflexivity |]);
      cbn [report_centrifugalAcceleration report_totalGravity];
      (split; [reflexivity | field; lra]).
  - unfold Hinge.App_physics. rewrite Hrpm, zero_rate. cbn [bind].
    destruct (planet p);
      cbn [Hinge.PLANET_CONFIGS_gravity];
      unfold Hinge.PHYSICS_EARTH_GRAVITY, Hinge.PHYSICS_MOON_GRAVITY,
        Hinge.PHYSICS_MARS_GRAVITY, Hinge.PHYSICS_SPACE_GRAVITY,
        Hinge.PHYSICS_ARM_LENGTH;
      match goal with
      | |- context [Rlt_dec 0 ?g] => destruct (Rlt_dec 0 g) as [Hg | Hg]; try lra
      end;
      try (rewrite (checked_div_some _ (_ / 100)) by lra);
      try rewrite (checked_div_some 180 PI Hpi);
      cbn [bind];
      try (destruct (Rlt_dec 0 (0 ^ 2 * 4)) as [H0 | H0]; [simpl in H0; lra |]);
      eexists; (split; [reflexivity |]);
      cbn [Hinge.report_centrifugalAcceleration Hinge.report_totalGravity];
      (split; [simpl; ring |]);
      replace (0 ^ 2 * 4) with 0 by (simpl; ring);
      match goal with
      | |- sqrt (0 ^ 2 + ?g ^ 2) = _ =>
          replace (0 ^ 2 + g ^ 2) with (g * g) by (simpl; ring);
          apply sqrt_square; lra
      end.
Qed.

Section Binary64Facts.

Import PrimFloat.

(** C7 fails as stated: in binary64 the multi-habitat read-out, which goes
    through the forces, (totalMass * gravity) / totalMass, does not return
    the gravity of Earth for an occupant of 55 kg at rpm = 0, stopped or
    rotating: it returns 9.809999999999999, not 9.81. *)
Lemma zero_spin_binary64_counterexample :
  Binary64.same
    (Binary64.report_totalGravity (Binary64.App_physics 0%float false earth 55%float))
    (Binary64.PLANET_DATA_gravity earth) = false
  /\ Binary64.same
       (Binary64.report_totalGravity (Binary64.App_physics 0%float true earth 55%float))
       (Binary64.PLANET_DATA_gravity earth) = false
  /\ Binary64.same
       (Binary64.report_centrifugalAcceleration (Binary64.App_physics 0%float true earth 55%float))
       0%float = true.
Proof. repeat split; vm_compute; reflexivity. Qed.


(** C7, as amended: at rpm = 0, in every environment and for every
    configuration of positive total mass, both read-outs are computed
    without any zero divisor, report a centrifugal acceleration of 0 and,
    in exact arithmetic, a combined gravity equal to the gravity of the
    environment (0 in Vacuum).  In binary64, for every occupant mass the
    slider offers, the centrifugal acceleration is 0 and the combined
    gravity of the multi-habitat read-out is the gravity of the
    environment or a neighbour of it in the last place. *)
Theorem zero_spin_baseline (p : Props) :
  rpm p = 0 -> 0 < BOX_MASS + personMass p ->
  ((exists r,
       App_physics p = Some r
       /\ report_centrifugalAcceleration r = 0
       /\ report_totalGravity r = PLANET_DATA_gravity (planet p))
   /\ (exists r,
       Hinge.App_physics (rpm p) (planet p) = Some r
       /\ Hinge.report_centrifugalAcceleration r = 0
       /\ Hinge.report_totalGravity r = Hinge.PLANET_CONFIGS_gravity (planet p))
   /\ PLANET_DATA_gravity space = 0
   /\ Hinge.PLANET_CONFIGS_gravity space = 0)
  /\ (forall (rotating : bool) (e : Planet) (m : float),
         In m Binary64.slider_personMass ->
         let r := Binary64.App_physics 0 rotating e m in
         Binary64.same (Binary64.report_centrifugalAcceleration r) 0 = true
         /\ Binary64.adjacent (Binary64.report_totalGravity r)
                              (Binary64.PLANET_DATA_gravity e) = true).
Proof.
  intros Hrpm Hmass. split; [exact (zero_spin_exact p Hrpm Hmass) |].
  intros rotating e m Hin. cbv zeta.
  unfold Binary64.slider_personMass in Hin. simpl in Hin.
  destruct rotating, e;
    repeat (destruct Hin as [<- | Hin]; [split; vm_compute; reflexivity |]);
    contradiction.
Qed.

Lemma zero_spin_baseline_witness :
  exists r,
    App_physics (mkProps 0 true earth 70 (8 / 10) 2 false) = Some r
    /\ report_centrifugalAcceleration r = 0
    /\ report_totalGravity r = 981 / 100.
Proof.
  refine (proj1 (proj1 (zero_spin_baseline
                          (mkProps 0 true earth 70 (8 / 10) 2 false) _ _))).
  - reflexivity.
  - simpl. unfold BOX_MASS. lra.
Defined.

End Binary64Facts.

(** ** Bounds on the angles *)

Lemma damping_budget (c dt : R) :
  0 <= c <= 9 / 100 -> 0 <= dt <= 1 / 25 ->
  0 < (88 / 100) * (1 + c) * (1 + dt) <= 1.
Proof. intros Hc Hdt. nra. Qed.

Lemma swing_axis_step (hi target speed dt a v : R) :
  0 <= dt <= 1 / 25 -> 0 <= speed <= 9 / 4 -> 0 <= target <= hi ->
  swings_within hi a v ->
  swings_within hi (fst (Spec.damped target speed dt a v))
                   (snd (Spec.damped target speed dt a v)).
Proof.
  intros Hdt Hk Ht [[Ha0 Ha1] [Hv0 Hv1]].
  unfold Spec.damped. cbv zeta. cbn [fst snd].
  set (c := speed * dt).
  assert (Hc : 0 <= c <= 9 / 100) by (unfold c; nra).
  destruct (damping_budget c dt Hc Hdt) as [Hq0 Hq1].
  set (v' := (v + (target - a) * speed * dt) * (88 / 100)).
  assert (Hlo : - a * ((88 / 100) * (1 + c)) <= v').
  { unfold v'. replace ((target - a) * speed * dt) with ((target - a) * c)
      by (unfold c; ring). nra. }
  assert (Hhi : v' <= (hi - a) * ((88 / 100) * (1 + c))).
  { unfold v'. replace ((target - a) * speed * dt) with ((target - a) * c)
      by (unfold c; ring). nra. }
  assert (H1 : - a <= v' * (1 + dt)).
  { apply Rle_trans with (- a * ((88 / 100) * (1 + c) * (1 + dt))); [nra |].
    replace (- a * (88 / 100 * (1 + c) * (1 + dt)))
      with ((- a * (88 / 100 * (1 + c))) * (1 + dt)) by ring.
    apply Rmult_le_compat_r; lra. }
  assert (H2 : v' * (1 + dt) <= hi - a).
  { apply Rle_trans with ((hi - a) * ((88 / 100) * (1 + c) * (1 + dt))); [| nra].
    replace ((hi - a) * (88 / 100 * (1 + c) * (1 + dt)))
      with (((hi - a) * (88 / 100 * (1 + c))) * (1 + dt)) by ring.
    apply Rmult_le_compat_r; lra. }
  unfold swings_within.
  assert (H3 : 0 <= (a + v' * dt) * (1 + dt)) by nra.
  assert (H4 : (a + v' * dt) * (1 + dt) <= hi * (1 + dt)) by nra.
  repeat split; nra.
Qed.

Lemma hold_axis_step (hi a v : R) :
  swings_within hi a v -> swings_within hi a (v * (88 / 100)).
Proof. unfold swings_within. intros [[Ha0 Ha1] [Hv0 Hv1]]. repeat split; nra. Qed.

Lemma responseSpeed_bounds (p : Props) :
  0 <= personMass p -> 0 <= responseSpeed p <= 9 / 4.
Proof.
  intros Hm. unfold responseSpeed, massInertiaFactor, GRAVITY_ALIGNMENT_SPEED, BOX_MASS.
  cbv zeta.
  assert (H1 : 1 <= sqrt ((50 + personMass p) / 50)).
  { rewrite <- sqrt_1 at 1. apply sqrt_le_1_alt. lra. }
  assert (Hinv : 0 < / sqrt ((50 + personMass p) / 50) <= 1).
  { split; [apply Rinv_0_lt_compat; lra |].
    rewrite <- Rinv_1. apply Rinv_le_contravar; lra. }
  set (r := sqrt ((50 + personMass p) / 50)) in *.
  change (0 <= 15 / 10 * / r <= 9 / 4). nra.
Qed.

Lemma lag_target_bounds (p : Props) : 0 <= clampedLagAngle p <= PI / 6.
Proof.
  unfold clampedLagAngle. cbv zeta. split; [| apply Rmin_r].
  pose proof PI_RGT_0 as Hpi.
  pose proof (centrifugalAcceleration_nonneg p) as Hca.
  apply Rmin_glb; [| lra].
  unfold CENTRIFUGAL_BULGE_FACTOR.
  destruct (Planet_eqb (planet p) space) eqn:E.
  - assert (0 <= atan (centrifugalAcceleration p / 10))
      by (apply atan_ratio_bounds; lra).
    nra.
  - assert (0 <= atan (centrifugalAcceleration p / PLANET_DATA_gravity (planet p))).
    { apply atan_ratio_bounds; [assumption |]. apply gravity_pos.
      intros Hs. apply Planet_eqb_space in Hs. congruence. }
    nra.
Qed.

(** The lag stays in [0, PI/6] for steps of up to a third of a second. *)
Lemma lag_frame_bounds (p : Props) (dt l : R) :
  0 <= dt <= 1 / 3 -> 0 <= l <= PI / 6 ->
  0 <= ConnectingArmToBox_frame p dt l <= PI / 6.
Proof.
  intros Hdt Hl. unfold ConnectingArmToBox_frame. cbv zeta.
  pose proof (lag_target_bounds p) as Ht.
  destruct (spinning p); [| destruct (Planet_eqb (planet p) space)];
    [| assumption |]; split; nra.
Qed.

Lemma lag_run_bounds (fs : list (Props * R)) (l : R) :
  Forall (fun f => 0 <= snd f <= 1 / 3) fs -> 0 <= l <= PI / 6 ->
  0 <= run_lag fs l <= PI / 6.
Proof.
  intros Hfs. revert l. induction Hfs as [| [p dt] fs Hdt _ IH]; intros l Hl.
  - exact Hl.
  - unfold run_lag in *. cbn [fold_left fst snd]. apply IH.
    now apply lag_frame_bounds.
Qed.

Lemma joint_frame_swings (p : Props) (dt : R) (s : JointState) :
  0 <= dt <= 1 / 25 -> 0 <= personMass p ->
  x (jointAngles s) = 0 -> x (angularVelocities s) = 0 ->
  swings_within (PI / 2) (z (jointAngles s)) (z (angularVelocities s)) ->
  let s' := UniversalJointAssembly_frame p dt s in
  x (jointAngles s') = 0 /\ x (angularVelocities s') = 0
  /\ swings_within (PI / 2) (z (jointAngles s')) (z (angularVelocities s')).
Proof.
  intros Hdt Hm Hx Hvx Hz. cbv zeta.
  pose proof PI_RGT_0 as Hpi.
  unfold UniversalJointAssembly_frame. cbv zeta.
  destruct (spinning p); [| destruct (Planet_eqb (planet p) space)];
    cbn [jointAngles angularVelocities x z]; rewrite ?Hx, ?Hvx.
  - split; [unfold targetAngleX; ring | split; [unfold targetAngleX; ring |]].
    assert (Ht : 0 <= clampedTargetZ p <= PI / 2)
      by (rewrite clampedTargetZ_spec; apply targetZ_bounds).
    exact (swing_axis_step (PI / 2) (clampedTargetZ p) (responseSpeed p) dt _ _
             Hdt (responseSpeed_bounds p Hm) Ht Hz).
  - split; [reflexivity | split; [ring |]]. now apply hold_axis_step.
  - split; [ring | split; [ring |]].
    assert (Hk : 0 <= GRAVITY_ALIGNMENT_SPEED * (15 / 10) <= 9 / 4)
      by (unfold GRAVITY_ALIGNMENT_SPEED; lra).
    assert (Ht : 0 <= 0 <= PI / 2) by lra.
    pose proof (swing_axis_step (PI / 2) 0 _ dt _ _ Hdt Hk Ht Hz) as H.
    unfold Spec.damped in H. cbv zeta in H. cbn [fst snd] in H.
    unfold ANGULAR_DAMPING.
    replace (- z (jointAngles s)) with (0 - z (jointAngles s)) by ring.
    exact H.
Qed.

Lemma Habitat_inv_init : Habitat_inv Habitat_init.
Proof.
  pose proof PI_RGT_0. unfold Habitat_inv, swings_within. simpl.
  repeat split; lra.
Qed.

Lemma Habitat_frame_inv (f : Frame) (h : Habitat) :
  fine_frame f -> Habitat_inv h ->
  Habitat_inv (Habitat_frame (props f) (delta f) (elapsed f) h).
Proof.
  intros [Hdt Hm] (Hx & Hvx & Hz & Hl).
  destruct (joint_frame_swings (props f) (delta f) (joint h) Hdt Hm Hx Hvx Hz)
    as (Hx' & Hvx' & Hz').
  unfold Habitat_inv, Habitat_frame. cbn [joint lag].
  split; [exact Hx' | split; [exact Hvx' | split; [exact Hz' |]]].
  apply lag_frame_bounds; [lra | exact Hl].
Qed.

Lemma Forall_take {A : Type} (P : A -> Prop) (n : nat) (l : list A) :
  Forall P l -> Forall P (firstn n l).
Proof.
  intros H. revert n. induction H as [| a l Ha _ IH]; intros [| n]; simpl;
    constructor; auto.
Qed.

Lemma remount_inv (n : nat) (hs : list Habitat) :
  Forall Habitat_inv hs -> Forall Habitat_inv (remount n hs).
Proof.
  intros H. unfold remount. apply Forall_app. split.
  - now apply Forall_take.
  - apply Forall_forall. intros h Hin. apply repeat_spec in Hin. subst h.
    apply Habitat_inv_init.
Qed.

Lemma Mechanism_frame_inv (f : Frame) (m : Mechanism) :
  fine_frame f -> Forall Habitat_inv (habitats m) ->
  Forall Habitat_inv (habitats (Mechanism_frame f m)).
Proof.
  intros Hf Hm. unfold Mechanism_frame. cbn [habitats].
  apply Forall_map.
  eapply Forall_impl; [| apply remount_inv, Hm].
  intros h Hh. now apply Habitat_frame_inv.
Qed.

Lemma run_inv (fs : list Frame) (m : Mechanism) :
  Forall fine_frame fs -> Forall Habitat_inv (habitats m) ->
  Forall Habitat_inv (habitats (run fs m)).
Proof.
  intros Hfs. revert m. induction Hfs as [| f fs Hf _ IH]; intros m Hm.
  - exact Hm.
  - unfold run in *. cbn [fold_left]. apply IH. now apply Mechanism_frame_inv.
Qed.

Lemma Habitat_inv_bounded (h : Habitat) : Habitat_inv h -> Spec.bounded h.
Proof.
  intros (Hx & _ & [[Hz0 Hz1] _] & Hl). pose proof PI_RGT_0.
  unfold Spec.bounded. rewrite Hx, Rabs_R0.
  rewrite Rabs_pos_eq by assumption. repeat split; lra.
Qed.

(** C2, as amended: over every sequence of frames of at most 1/25 s with a
    non-negative occupant mass, whatever the rate, the environment and the
    module count of each frame, every module mounted from the zero state
    keeps angleX = 0, 0 <= angleZ <= PI/2 and 0 <= lagAngle <= PI/6, hence
    the bounds of the specification.  The frames clamp the targets only;
    nothing clamps an angle after its update. *)
Theorem angle_bounds_fine_frames (fs : list Frame) :
  Forall fine_frame fs ->
  Forall (fun h =>
            Spec.bounded h
            /\ x (jointAngles (joint h)) = 0
            /\ 0 <= z (jointAngles (joint h)))
         (habitats (run fs Mechanism_init)).
Proof.
  intros Hfs.
  eapply Forall_impl; [| apply (run_inv fs Mechanism_init Hfs); constructor].
  intros h Hh. split; [now apply Habitat_inv_bounded |].
  destruct Hh as (Hx & _ & [[Hz0 _] _] & _). now split.
Qed.

Lemma angle_bounds_fine_frames_witness :
  Forall (fun h =>
            Spec.bounded h
            /\ x (jointAngles (joint h)) = 0
            /\ 0 <= z (jointAngles (joint h)))
         (habitats
            (run [mkFrame (mkProps 20 true earth 70 (8 / 10) 2 false) (1 / 60) (1 / 60);
                  mkFrame (mkProps 20 false earth 70 (8 / 10) 4 false) (1 / 30) (1 / 20)]
                 Mechanism_init)).
Proof.
  apply angle_bounds_fine_frames.
  repeat constructor; simpl; lra.
Defined.

Lemma sqrt_lt_2 (u : R) : 0 <= u < 4 -> sqrt u < 2.
Proof.
  intros [H0 H4]. replace 2 with (sqrt 4).
  - now apply sqrt_lt_1_alt.
  - replace 4 with (2 * 2) by ring. apply sqrt_square. lra.
Qed.

(** C2 fails as stated: one driving frame of two seconds in Vacuum (default
    rate 20 rpm, default occupant of 70 kg) carries angleZ of a freshly
    mounted module beyond PI/2. *)
Lemma angle_bounds_counterexample :
  ~ Forall Spec.bounded
      (habitats
         (run [mkFrame (mkProps 20 true space 70 (8 / 10) 2 false) 2 2]
              Mechanism_init)).
Proof.
  intros H.
  unfold run, Mechanism_frame, remount in H. cbn [fold_left props delta elapsed
    habitatCount habitats firstn repeat length Nat.sub app map] in H.
  apply Forall_inv in H. destruct H as (_ & Hz & _).
  unfold Habitat_frame, Habitat_init in Hz. cbn [joint] in Hz.
  unfold UniversalJointAssembly_frame in Hz.
  rewrite spinning_true in Hz by (simpl; (reflexivity || lra)).
  cbv zeta in Hz. cbn [jointAngles angularVelocities JointState_init x z] in Hz.
  unfold clampedTargetZ in Hz. cbn [planet Planet_eqb] in Hz. cbv zeta in Hz.
  rewrite Rmin_left in Hz by lra.
  unfold responseSpeed, massInertiaFactor, GRAVITY_ALIGNMENT_SPEED, BOX_MASS,
    ANGULAR_DAMPING in Hz.
  cbv zeta in Hz. cbn [personMass] in Hz.
  pose proof PI_RGT_0 as Hpi.
  assert (Hs : sqrt ((50 + 70) / 50) < 2) by (apply sqrt_lt_2; lra).
  assert (Hs0 : 0 < sqrt ((50 + 70) / 50)) by (apply sqrt_lt_R0; lra).
  set (r := sqrt ((50 + 70) / 50)) in *.
  assert (Hk : 3 / 4 < 15 / 10 / r).
  { apply Rmult_lt_reg_r with r; [assumption |].
    unfold Rdiv at 2. rewrite Rmult_assoc, Rinv_l by lra. lra. }
  set (k := 15 / 10 / r) in *.
  assert (Hbig : PI / 2 < 0 + (0 + (PI / 2 - 0) * k * 2) * (88 / 100) * 2) by nra.
  rewrite Rabs_pos_eq in Hz by lra. lra.
Qed.

(** ** Returning under gravity *)

Lemma gravity_stop_frame (p : Props) (dt : R) (s : JointState) :
  planet p <> space -> isRotating p = false ->
  let s' := UniversalJointAssembly_frame p dt s in
  (x (jointAngles s'), x (angularVelocities s'))
    = Spec.damped 0 (9 / 4) dt (x (jointAngles s)) (x (angularVelocities s))
  /\ (z (jointAngles s'), z (angularVelocities s'))
    = Spec.damped 0 (9 / 4) dt (z (jointAngles s)) (z (angularVelocities s)).
Proof.
  intros Hpl Hact. cbv zeta. unfold UniversalJointAssembly_frame.
  rewrite (spinning_stopped p Hact).
  destruct (Planet_eqb (planet p) space) eqn:E;
    [apply Planet_eqb_space in E; contradiction |].
  cbv zeta. cbn [jointAngles angularVelocities x z].
  unfold Spec.damped, GRAVITY_ALIGNMENT_SPEED, ANGULAR_DAMPING.
  split; f_equal; field.
Qed.

Lemma damped_odd (speed dt a v : R) :
  Spec.damped 0 speed dt (- a) (- v)
  = (- fst (Spec.damped 0 speed dt a v), - snd (Spec.damped 0 speed dt a v)).
Proof. unfold Spec.damped. cbv zeta. cbn [fst snd]. f_equal; ring. Qed.

Lemma settle_axis_step (speed dt a v : R) :
  0 <= dt <= 1 / 25 -> 0 <= speed <= 9 / 4 -> 0 <= a -> - a <= v <= 0 ->
  let a' := fst (Spec.damped 0 speed dt a v) in
  let v' := snd (Spec.damped 0 speed dt a v) in
  0 <= a' <= (1 - 88 / 100 * speed * (dt * dt)) * a /\ - a' <= v' <= 0.
Proof.
  intros Hdt Hk Ha Hv. cbv zeta.
  assert (Hs : swings_within a a v) by (unfold swings_within; lra).
  assert (Ht : 0 <= 0 <= a) by lra.
  destruct (swing_axis_step a 0 speed dt a v Hdt Hk Ht Hs) as [[Ha0 _] [Hv0 _]].
  revert Ha0 Hv0. unfold Spec.damped. cbv zeta. cbn [fst snd].
  intros Ha0 Hv0.
  assert (Hc : 0 <= speed * dt) by nra.
  assert (Hv' : (v + (0 - a) * speed * dt) * (88 / 100)
                <= - a * (speed * dt) * (88 / 100)) by nra.
  assert (Hv'' : (v + (0 - a) * speed * dt) * (88 / 100) <= 0) by nra.
  repeat split; try assumption. nra.
Qed.

Lemma small_pow_vanishes (q e0 eps : R) :
  0 <= q < 1 -> 0 <= e0 -> 0 < eps ->
  exists N : nat, forall n : nat, (N <= n)%nat -> q ^ n * e0 < eps.
Proof.
  intros Hq He0 Heps.
  assert (Hy : 0 < eps / (e0 + 1)) by (apply Rdiv_lt_0_compat; lra).
  assert (Habs : Rabs q < 1) by (rewrite Rabs_pos_eq; lra).
  destruct (pow_lt_1_zero q Habs (eps / (e0 + 1)) Hy) as [N HN].
  exists N. intros n Hn. specialize (HN n Hn).
  assert (Hqn : 0 <= q ^ n) by (apply pow_le; lra).
  rewrite Rabs_pos_eq in HN by assumption.
  assert (Hmul : q ^ n * (e0 + 1) < eps).
  { apply Rmult_lt_reg_r with (/ (e0 + 1)); [apply Rinv_0_lt_compat; lra |].
    rewrite Rmult_assoc, Rinv_r by lra. lra. }
  nra.
Qed.

Lemma settle_run_app (l1 l2 : list R) (av : R * R) :
  settle_run (l1 ++ l2) av = settle_run l2 (settle_run l1 av).
Proof. unfold settle_run. apply fold_left_app. Qed.

Lemma settle_run_cons (dt : R) (dts : list R) (a v : R) :
  settle_run (dt :: dts) (a, v) = settle_run dts (Spec.damped 0 (9 / 4) dt a v).
Proof. reflexivity. Qed.

Lemma settle_run_snoc (dts : list R) (dt : R) (av : R * R) :
  settle_run (dts ++ [dt]) av
  = Spec.damped 0 (9 / 4) dt (fst (settle_run dts av)) (snd (settle_run dts av)).
Proof. rewrite settle_run_app. reflexivity. Qed.

Lemma run_joint_settle (fs : list (Props * R)) (s : JointState) :
  Forall gravity_stop fs ->
  (z (jointAngles (run_joint fs s)), z (angularVelocities (run_joint fs s)))
  = settle_run (map snd fs) (z (jointAngles s), z (angularVelocities s))
  /\ (x (jointAngles (run_joint fs s)), x (angularVelocities (run_joint fs s)))
     = settle_run (map snd fs) (x (jointAngles s), x (angularVelocities s)).
Proof.
  intros Hfs. revert s. induction Hfs as [| f fs (Hpl & Hact & _) _ IH]; intros s.
  - split; reflexivity.
  - change (run_joint (f :: fs) s)
      with (run_joint fs (UniversalJointAssembly_frame (fst f) (snd f) s)).
    cbn [map].
    destruct (IH (UniversalJointAssembly_frame (fst f) (snd f) s)) as [Ez Ex].
    destruct (gravity_stop_frame (fst f) (snd f) s Hpl Hact) as [Fx Fz].
    cbv zeta in Fx, Fz.
    rewrite Ez, Ex, Fx, Fz. rewrite !settle_run_cons. split; reflexivity.
Qed.

(** The interval [0, hi] is kept by stopped frames under gravity. *)
Lemma settle_run_swings (hi : R) (dts : list R) (a v : R) :
  Forall (fun dt => 0 <= dt <= 1 / 25) dts -> swings_within hi a v ->
  swings_within hi (fst (settle_run dts (a, v))) (snd (settle_run dts (a, v))).
Proof.
  intros Hd. revert a v. induction Hd as [| dt dts Hdt _ IH]; intros a v Hs.
  - exact Hs.
  - rewrite settle_run_cons.
    assert (Hk : 0 <= 9 / 4 <= 9 / 4) by lra.
    assert (Ht : 0 <= 0 <= hi) by (destruct Hs as [[? ?] _]; lra).
    pose proof (swing_axis_step hi 0 (9 / 4) dt a v Hdt Hk Ht Hs) as H.
    destruct (Spec.damped 0 (9 / 4) dt a v) as [a' v']. now apply IH.
Qed.

(** What an outward velocity can still add to the angle: the velocity
    loses 12 % per frame and a frame lasts at most 1/25 s, so the angle
    rises by at most 0.88/25 * (1 + 0.88 + 0.88^2 + ...) = 22/75 times the
    velocity. *)
Lemma rise_axis_step (dt a v : R) :
  0 <= dt <= 1 / 25 -> 0 <= a ->
  let a' := fst (Spec.damped 0 (9 / 4) dt a v) in
  let v' := snd (Spec.damped 0 (9 / 4) dt a v) in
  a' + 22 / 75 * Rmax 0 v' <= a + 22 / 75 * Rmax 0 v.
Proof.
  intros Hdt Ha. cbv zeta. unfold Spec.damped. cbv zeta. cbn [fst snd].
  set (v' := (v + (0 - a) * (9 / 4) * dt) * (88 / 100)).
  assert (Hm : 0 <= Rmax 0 v) by apply Rmax_l.
  assert (Hmv : v <= Rmax 0 v) by apply Rmax_r.
  destruct (Rle_dec v' 0) as [Hv' | Hv'].
  - rewrite (Rmax_left 0 v') by assumption. nra.
  - rewrite (Rmax_right 0 v') by lra.
    assert (Hv'v : v' <= 88 / 100 * Rmax 0 v) by (unfold v'; nra).
    assert (Hdv : v' * dt <= v' * (1 / 25)) by nra.
    lra.
Qed.

Lemma settle_run_rise (hi : R) (dts : list R) (a v : R) :
  Forall (fun dt => 0 <= dt <= 1 / 25) dts -> swings_within hi a v ->
  fst (settle_run dts (a, v)) <= a + 22 / 75 * Rmax 0 v.
Proof.
  intros Hd. revert a v. induction Hd as [| dt dts Hdt _ IH]; intros a v Hs.
  - cbn [settle_run fold_left fst]. pose proof (Rmax_l 0 v). lra.
  - rewrite settle_run_cons.
    assert (Hk : 0 <= 9 / 4 <= 9 / 4) by lra.
    assert (Ha : 0 <= a) by (destruct Hs as [[? ?] _]; lra).
    assert (Ht : 0 <= 0 <= hi) by (destruct Hs as [[? ?] _]; lra).
    pose proof (swing_axis_step hi 0 (9 / 4) dt a v Hdt Hk Ht Hs) as H.
    pose proof (rise_axis_step dt a v Hdt Ha) as Hr. cbv zeta in Hr.
    destruct (Spec.damped 0 (9 / 4) dt a v) as [a' v']. cbn [fst snd] in *.
    specialize (IH a' v' H). lra.
Qed.

(** Once the velocity points to 0 it keeps doing so, and a frame of
    positive step brings a positive angle strictly closer to 0. *)
Lemma inward_axis_step (hi dt a v : R) :
  0 <= dt <= 1 / 25 -> swings_within hi a v -> v <= 0 ->
  let a' := fst (Spec.damped 0 (9 / 4) dt a v) in
  let v' := snd (Spec.damped 0 (9 / 4) dt a v) in
  v' <= 0 /\ 0 <= a' <= (1 - 88 / 100 * (9 / 4) * (dt * dt)) * a
  /\ (0 < dt -> 0 < a -> a' < a).
Proof.
  intros Hdt [[Ha0 Ha1] [Hv0 Hv1]] Hv. cbv zeta.
  assert (Hk : 0 <= 9 / 4 <= 9 / 4) by lra.
  assert (Hr : - a <= v <= 0) by lra.
  destruct (settle_axis_step (9 / 4) dt a v Hdt Hk Ha0 Hr) as [[H0 H1] [H2 H3]].
  cbv zeta in H0, H1, H2, H3.
  split; [exact H3 | split; [now split |]].
  intros Hp Hap. assert (0 < dt * dt) by nra. nra.
Qed.

Lemma settle_run_inward (hi : R) (dts : list R) (a v : R) :
  Forall (fun dt => 0 <= dt <= 1 / 25) dts -> swings_within hi a v -> v <= 0 ->
  snd (settle_run dts (a, v)) <= 0.
Proof.
  intros Hd. revert a v. induction Hd as [| dt dts Hdt _ IH]; intros a v Hs Hv.
  - exact Hv.
  - rewrite settle_run_cons.
    assert (Hk : 0 <= 9 / 4 <= 9 / 4) by lra.
    assert (Ht : 0 <= 0 <= hi) by (destruct Hs as [[? ?] _]; lra).
    pose proof (swing_axis_step hi 0 (9 / 4) dt a v Hdt Hk Ht Hs) as H.
    destruct (inward_axis_step hi dt a v Hdt Hs Hv) as [Hv' _]. cbv zeta in Hv'.
    destruct (Spec.damped 0 (9 / 4) dt a v) as [a' v']. now apply IH.
Qed.

(** Geometric approach once the velocity points to 0, for steps of at
    least [dmin]. *)
Lemma settle_run_contracts (hi dmin : R) (dts : list R) (a v : R) :
  0 <= dmin ->
  Forall (fun dt => dmin <= dt <= 1 / 25) dts -> swings_within hi a v -> v <= 0 ->
  fst (settle_run dts (a, v))
  <= (1 - 88 / 100 * (9 / 4) * (dmin * dmin)) ^ length dts * a.
Proof.
  intros Hm Hd. revert a v. induction Hd as [| dt dts Hdt _ IH]; intros a v Hs Hv.
  - cbn [settle_run fold_left fst length pow]. lra.
  - rewrite settle_run_cons.
    assert (Hdt' : 0 <= dt <= 1 / 25) by lra.
    assert (Hk : 0 <= 9 / 4 <= 9 / 4) by lra.
    assert (Ht : 0 <= 0 <= hi) by (destruct Hs as [[? ?] _]; lra).
    pose proof (swing_axis_step hi 0 (9 / 4) dt a v Hdt' Hk Ht Hs) as H.
    destruct (inward_axis_step hi dt a v Hdt' Hs Hv) as (Hv' & [Ha0 Ha1] & _).
    cbv zeta in Hv', Ha0, Ha1.
    destruct (Spec.damped 0 (9 / 4) dt a v) as [a' v']. cbn [fst snd] in *.
    specialize (IH a' v' H Hv'). cbn [length pow].
    set (q := 1 - 88 / 100 * (9 / 4) * (dmin * dmin)) in *.
    assert (Hq : 0 <= q) by (unfold q; nra).
    assert (Hqn : 0 <= q ^ length dts) by (apply pow_le; exact Hq).
    assert (Hd2 : dmin * dmin <= dt * dt) by nra.
    assert (Ha : 0 <= a) by (destruct Hs as [[? ?] _]; lra).
    assert (Ha'q : a' <= q * a) by (unfold q; nra).
    nra.
Qed.

(** While the velocity still points outward the angle has not dropped and
    the velocity has lost 12 % in every frame. *)
Lemma settle_run_outward (hi A V : R) (dts : list R) (a v : R) :
  Forall (fun dt => 0 <= dt <= 1 / 25) dts -> swings_within hi a v ->
  A <= a -> v <= V -> 0 <= V ->
  0 < snd (settle_run dts (a, v)) ->
  A <= fst (settle_run dts (a, v))
  /\ snd (settle_run dts (a, v)) <= (88 / 100) ^ length dts * V.
Proof.
  intros Hd Hs HA HV HV0. induction dts as [| dt dts IH] using rev_ind.
  - cbn [settle_run fold_left fst snd length pow]. intros _. lra.
  - apply Forall_app in Hd. destruct Hd as [Hd Hdt].
    apply Forall_inv in Hdt. specialize (IH Hd).
    pose proof (settle_run_swings hi dts a v Hd Hs) as [[Ha0 Ha1] [Hv0 Hv1]].
    rewrite settle_run_snoc, length_app. cbn [length].
    replace (length dts + 1)%nat with (S (length dts)) by lia. cbn [pow].
    destruct (settle_run dts (a, v)) as [am vm]. cbn [fst snd] in *.
    unfold Spec.damped. cbv zeta. cbn [fst snd].
    intros Hpos.
    assert (Hvm : 0 < vm) by nra.
    destruct (IH Hvm) as [IA IV].
    split; [nra |].
    assert (Hp : 0 <= (88 / 100) ^ length dts) by (apply pow_le; lra).
    nra.
Qed.

(** From an angle of at least [A] > 0 and steps of at least [dmin] > 0 the
    velocity points to 0 after a number of frames that depends only on
    [A], [dmin] and a bound [V] of the velocity. *)
Lemma settle_run_turns_from (A V dmin : R) :
  0 < A -> 0 <= V -> 0 < dmin ->
  exists N : nat, forall (hi a v : R) (dts : list R),
    swings_within hi a v -> A <= a -> v <= V ->
    Forall (fun dt => dmin <= dt <= 1 / 25) dts -> (N <= length dts)%nat ->
    snd (settle_run dts (a, v)) <= 0.
Proof.
  intros HA HV Hm.
  assert (Hc : 0 < 9 / 4 * A * dmin) by nra.
  destruct (small_pow_vanishes (88 / 100) V (9 / 4 * A * dmin)) as [N0 HN0];
    [lra | exact HV | exact Hc |].
  exists (S N0). intros hi a v dts Hs Ha Hv Hd Hlen.
  destruct (exists_last (l := dts)) as (dts' & dt & E).
  { intros ->. simpl in Hlen. lia. }
  subst dts. rewrite length_app in Hlen. cbn [length] in Hlen.
  apply Forall_app in Hd. destruct Hd as [Hd Hdt]. apply Forall_inv in Hdt.
  assert (Hd' : Forall (fun dt => 0 <= dt <= 1 / 25) dts').
  { eapply Forall_impl; [| exact Hd]. cbv beta. intros; lra. }
  pose proof (settle_run_swings hi dts' a v Hd' Hs) as Hs'.
  pose proof (settle_run_outward hi A V dts' a v Hd' Hs Ha Hv HV) as Ho.
  rewrite settle_run_snoc.
  destruct (settle_run dts' (a, v)) as [am vm]. cbn [fst snd] in *.
  destruct Hs' as [[Ha0 Ha1] [Hv0 Hv1]].
  unfold Spec.damped. cbv zeta. cbn [fst snd].
  destruct (Rle_dec vm 0) as [Hvm | Hvm].
  - nra.
  - destruct Ho as [IA IV]; [lra |].
    assert (Hsmall : (88 / 100) ^ length dts' * V < 9 / 4 * A * dmin)
      by (apply HN0; lia).
    assert (Hprod : A * dmin <= am * dt) by nra.
    nra.
Qed.

(** From any state inside [0, hi], for steps of at least [dmin] > 0, the
    velocity points to 0 after finitely many stopped frames, and from then
    on for good. *)
Lemma settle_run_turns (hi dmin a v : R) :
  0 < dmin -> swings_within hi a v ->
  exists N : nat, forall dts : list R,
    Forall (fun dt => dmin <= dt <= 1 / 25) dts -> (N <= length dts)%nat ->
    snd (settle_run dts (a, v)) <= 0.
Proof.
  intros Hm Hs.
  assert (Hweak : forall dts, Forall (fun dt => dmin <= dt <= 1 / 25) dts ->
                              Forall (fun dt => 0 <= dt <= 1 / 25) dts).
  { intros dts Hd. eapply Forall_impl; [| exact Hd]. cbv beta. intros; lra. }
  destruct (Rle_dec v 0) as [Hv | Hv].
  - exists 0%nat. intros dts Hd _.
    apply (settle_run_inward hi); auto.
  - assert (Hv0 : 0 < v) by lra.
    destruct Hs as [[Ha0 Ha1] [Hv1 Hv2]].
    destruct (Rle_lt_or_eq_dec 0 a Ha0) as [Ha | Ha].
    + destruct (settle_run_turns_from a v dmin Ha (Rlt_le _ _ Hv0) Hm) as [N HN].
      exists N. intros dts Hd Hlen.
      apply (HN hi a v dts); try assumption; try lra.
      unfold swings_within; lra.
    + subst a.
      assert (HA : 0 < 88 / 100 * v * dmin) by nra.
      destruct (settle_run_turns_from (88 / 100 * v * dmin) v dmin HA
                  (Rlt_le _ _ Hv0) Hm) as [N HN].
      exists (S N). intros dts Hd Hlen.
      destruct dts as [| dt dts]; [simpl in Hlen; lia |].
      cbn [length] in Hlen. inversion Hd as [| ? ? Hdt Hd']; subst.
      rewrite settle_run_cons.
      assert (Hdt' : 0 <= dt <= 1 / 25) by lra.
      assert (Hk : 0 <= 9 / 4 <= 9 / 4) by lra.
      assert (Ht : 0 <= 0 <= hi) by lra.
      assert (Hs : swings_within hi 0 v) by (unfold swings_within; lra).
      pose proof (swing_axis_step hi 0 (9 / 4) dt 0 v Hdt' Hk Ht Hs) as H.
      assert (E : Spec.damped 0 (9 / 4) dt 0 v
                  = (88 / 100 * v * dt, 88 / 100 * v)).
      { unfold Spec.damped. cbv zeta. f_equal; ring. }
      rewrite E in *. cbn [fst snd] in H.
      apply (HN hi); try assumption; try nra. lia.
Qed.

(** Hence the angle converges to 0. *)
Lemma settle_run_vanishes (hi dmin a v eps : R) :
  0 < dmin -> swings_within hi a v -> 0 < eps ->
  exists N : nat, forall dts : list R,
    Forall (fun dt => dmin <= dt <= 1 / 25) dts -> (N <= length dts)%nat ->
    fst (settle_run dts (a, v)) < eps.
Proof.
  intros Hm Hs Heps.
  destruct (settle_run_turns hi dmin a v Hm Hs) as [N1 HN1].
  set (q := 1 - 88 / 100 * (9 / 4) * (dmin * dmin)).
  assert (Hhi : 0 <= hi) by (destruct Hs as [[? ?] _]; lra).
  destruct (Rle_dec dmin (1 / 25)) as [Hsmall | Hbig].
  - assert (Hq : 0 <= q < 1) by (unfold q; nra).
    destruct (small_pow_vanishes q hi eps Hq Hhi Heps) as [M HM].
    exists (N1 + M)%nat. intros dts Hd Hlen.
    rewrite <- (firstn_skipn N1 dts). rewrite settle_run_app.
    assert (Hd1 : Forall (fun dt => dmin <= dt <= 1 / 25) (firstn N1 dts))
      by now apply Forall_take.
    assert (Hd2 : Forall (fun dt => dmin <= dt <= 1 / 25) (skipn N1 dts)).
    { rewrite <- (firstn_skipn N1 dts) in Hd. apply Forall_app in Hd. tauto. }
    assert (Hd1' : Forall (fun dt => 0 <= dt <= 1 / 25) (firstn N1 dts)).
    { eapply Forall_impl; [| exact Hd1]. cbv beta. intros; lra. }
    pose proof (settle_run_swings hi (firstn N1 dts) a v Hd1' Hs) as Hs1.
    assert (Hv1 : snd (settle_run (firstn N1 dts) (a, v)) <= 0).
    { apply HN1; [exact Hd1 |]. rewrite length_firstn. lia. }
    destruct (settle_run (firstn N1 dts) (a, v)) as [a1 v1]. cbn [fst snd] in *.
    pose proof (settle_run_contracts hi dmin (skipn N1 dts) a1 v1
                  (Rlt_le _ _ Hm) Hd2 Hs1 Hv1) as Hc.
    fold q in Hc.
    assert (Hlen2 : (M <= length (skipn N1 dts))%nat)
      by (rewrite length_skipn; lia).
    specialize (HM _ Hlen2).
    assert (Hqn : 0 <= q ^ length (skipn N1 dts)) by (apply pow_le; lra).
    destruct Hs1 as [[Ha0 Ha1] _]. nra.
  - exists 1%nat. intros dts Hd Hlen.
    destruct dts as [| dt dts]; [simpl in Hlen; lia |].
    apply Forall_inv in Hd. lra.
Qed.

Lemma brisk_stop_steps (dmin : R) (fs : list (Props * R)) :
  Forall (brisk_stop dmin) fs ->
  Forall gravity_stop fs
  /\ Forall (fun dt => dmin <= dt <= 1 / 25) (map snd fs).
Proof.
  intros H. induction H as [| f fs [Hg Hm] _ [IH1 IH2]].
  - split; constructor.
  - split; [now constructor |]. cbn [map]. constructor; [| exact IH2].
    destruct Hg as (_ & _ & Hdt). lra.
Qed.

Lemma gravity_stop_steps (fs : list (Props * R)) :
  Forall gravity_stop fs -> Forall (fun dt => 0 <= dt <= 1 / 25) (map snd fs).
Proof.
  intros H. induction H as [| f fs (_ & _ & Hdt) _ IH]; cbn [map];
    constructor; assumption.
Qed.

(** C8, as amended: take any module of the mechanism after any run of
    frames of at most 1/25 s with a non-negative occupant mass from the
    mounted state, driven or not, so in particular at the moment active
    flips false, and let stopped frames under gravity (Earth, Moon or
    Mars) of at most 1/25 s follow.  Then angleZ never passes 0 and never
    leaves [0, PI/2]; it may still rise while the velocity left by the
    drive points outward, in total by at most 22/75 of that velocity;
    angleX stays 0; once the velocity points to 0 it does so for good,
    and every further frame brings angleZ closer to 0, strictly so for a
    positive step and a positive angle.  If the steps are at least some
    dmin > 0, the velocity points to 0 after finitely many frames, and
    angleZ converges to 0. *)
Theorem gravity_return (fs0 : list Frame) (h : Habitat) (dmin : R) :
  Forall fine_frame fs0 -> In h (habitats (run fs0 Mechanism_init)) ->
  0 < dmin ->
  let angleZ fs := z (jointAngles (run_joint fs (joint h))) in
  let velocityZ fs := z (angularVelocities (run_joint fs (joint h))) in
  (forall fs, Forall gravity_stop fs ->
     0 <= angleZ fs <= PI / 2
     /\ angleZ fs <= angleZ [] + 22 / 75 * Rmax 0 (velocityZ [])
     /\ x (jointAngles (run_joint fs (joint h))) = 0
     /\ (velocityZ fs <= 0 -> forall f, gravity_stop f ->
         velocityZ (fs ++ [f]) <= 0
         /\ angleZ (fs ++ [f]) <= angleZ fs
         /\ (0 < snd f -> 0 < angleZ fs -> angleZ (fs ++ [f]) < angleZ fs)))
  /\ (exists N : nat, forall fs,
        Forall (brisk_stop dmin) fs -> (N <= length fs)%nat ->
        velocityZ fs <= 0)
  /\ (forall eps, 0 < eps ->
      exists N : nat, forall fs,
        Forall (brisk_stop dmin) fs -> (N <= length fs)%nat ->
        angleZ fs < eps).
Proof.
  intros Hfs0 Hin Hm. cbv zeta.
  assert (Hinv : Habitat_inv h).
  { pose proof (run_inv fs0 Mechanism_init Hfs0 (Forall_nil _)) as H.
    rewrite Forall_forall in H. now apply H. }
  destruct Hinv as (Hx & Hvx & Hz & _).
  set (s := joint h) in *.
  assert (Proj : forall fs, Forall gravity_stop fs ->
            z (jointAngles (run_joint fs s))
            = fst (settle_run (map snd fs)
                     (z (jointAngles s), z (angularVelocities s)))
            /\ z (angularVelocities (run_joint fs s))
               = snd (settle_run (map snd fs)
                        (z (jointAngles s), z (angularVelocities s)))
            /\ x (jointAngles (run_joint fs s))
               = fst (settle_run (map snd fs)
                        (x (jointAngles s), x (angularVelocities s)))).
  { intros fs Hfs. destruct (run_joint_settle fs s Hfs) as [Ez Ex].
    rewrite <- Ez, <- Ex. repeat split. }
  split; [| split].
  - intros fs Hfs.
    destruct (Proj fs Hfs) as (Ea & Ev & Exa).
    pose proof (gravity_stop_steps fs Hfs) as Hd.
    pose proof (settle_run_swings (PI / 2) _ _ _ Hd Hz) as Hs.
    split; [rewrite Ea; apply Hs |].
    split; [rewrite Ea; cbn [run_joint fold_left];
            now apply (settle_run_rise (PI / 2)) |].
    split.
    { rewrite Exa, Hx, Hvx.
      assert (H0 : swings_within 0 0 0) by (unfold swings_within; lra).
      destruct (settle_run_swings 0 _ 0 0 Hd H0) as [[? ?] _]. lra. }
    intros Hv f Hf.
    assert (Hfs' : Forall gravity_stop (fs ++ [f])).
    { apply Forall_app. split; [exact Hfs | now constructor]. }
    destruct (Proj _ Hfs') as (Ea' & Ev' & _).
    rewrite Ea', Ev', Ea. rewrite Ev in Hv.
    rewrite map_app. cbn [map]. rewrite settle_run_snoc.
    destruct Hf as (_ & _ & Hdt).
    destruct (inward_axis_step (PI / 2) (snd f) _ _ Hdt Hs Hv)
      as (Hv' & [Ha0 Ha1] & Hstrict).
    cbv zeta in Hv', Ha0, Ha1, Hstrict.
    split; [exact Hv' | split; [| exact Hstrict]].
    destruct Hs as [[Hs0 _] _].
    assert (0 <= snd f * snd f) by nra. nra.
  - destruct (settle_run_turns (PI / 2) dmin _ _ Hm Hz) as [N HN].
    exists N. intros fs Hfs Hlen.
    destruct (brisk_stop_steps dmin fs Hfs) as [Hg Hd].
    destruct (Proj fs Hg) as (_ & Ev & _). rewrite Ev.
    apply HN; [exact Hd |]. now rewrite length_map.
  - intros eps Heps.
    destruct (settle_run_vanishes (PI / 2) dmin _ _ eps Hm Hz Heps) as [N HN].
    exists N. intros fs Hfs Hlen.
    destruct (brisk_stop_steps dmin fs Hfs) as [Hg Hd].
    destruct (Proj fs Hg) as (Ea & _). rewrite Ea.
    apply HN; [exact Hd |]. now rewrite length_map.
Qed.

Lemma gravity_return_witness :
  let driving := mkProps 20 true earth 70 (8 / 10) 2 false in
  let stopped := mkProps 20 false earth 70 (8 / 10) 2 false in
  let h := Habitat_frame driving (1 / 60) (1 / 60) Habitat_init in
  0 <= z (jointAngles (run_joint [(stopped, 1 / 60)] (joint h))) <= PI / 2.
Proof.
  intros driving stopped h.
  refine (proj1 (proj1 (gravity_return [mkFrame driving (1 / 60) (1 / 60)] h
                          (1 / 60) _ _ _) [(stopped, 1 / 60)] _)).
  - repeat constructor; simpl; lra.
  - left. reflexivity.
  - lra.
  - repeat constructor; simpl; (discriminate || lra).
Defined.

Lemma atan_pos (v : R) : 0 < v -> 0 < atan v.
Proof. intros H. rewrite <- atan_0. now apply atan_increasing. Qed.

(** C8 fails as stated: on Earth, at 60 frames per second, a module that
    has been driven for one frame from rest and is then stopped is farther
    from 0 after the first stopped frame than before it. *)
Lemma gravity_return_counterexample :
  let driving := mkProps 20 true earth 70 (8 / 10) 2 false in
  let stopped := mkProps 20 false earth 70 (8 / 10) 2 false in
  let s1 := run_joint [(driving, 1 / 60)] JointState_init in
  let s2 := run_joint [(stopped, 1 / 60)] s1 in
  ~ Rabs (z (jointAngles s2)) <= Rabs (z (jointAngles s1)).
Proof.
  intros driving stopped s1 s2.
  assert (Hd : (z (jointAngles s1), z (angularVelocities s1))
               = Spec.damped (clampedTargetZ driving) (responseSpeed driving)
                   (1 / 60) 0 0).
  { apply (drive_frame driving (1 / 60) JointState_init);
      simpl; (reflexivity || lra). }
  assert (Hs : (z (jointAngles s2), z (angularVelocities s2))
               = Spec.damped 0 (9 / 4) (1 / 60)
                   (z (jointAngles s1)) (z (angularVelocities s1))).
  { apply (gravity_stop_frame stopped (1 / 60) s1); simpl;
      (discriminate || reflexivity). }
  assert (Ht : 0 < clampedTargetZ driving).
  { pose proof PI_RGT_0. unfold clampedTargetZ. cbv zeta.
    cbn [planet driving Planet_eqb PLANET_DATA_gravity].
    apply Rmin_glb_lt; [| lra]. apply atan_pos.
    unfold centrifugalAcceleration, angularVelocity, ARM_LENGTH.
    cbn [rpm driving].
    apply Rmult_lt_0_compat; [nra | lra]. }
  assert (Hk : 0 < responseSpeed driving).
  { unfold responseSpeed, massInertiaFactor, GRAVITY_ALIGNMENT_SPEED, BOX_MASS.
    cbv zeta. cbn [personMass driving].
    apply Rmult_lt_0_compat; [lra |].
    apply Rinv_0_lt_compat, sqrt_lt_R0. lra. }
  clearbody s2. clearbody s1.
  set (T := clampedTargetZ driving) in *.
  set (k := responseSpeed driving) in *.
  clearbody T k.
  unfold Spec.damped in Hd, Hs. cbv zeta in Hd, Hs.
  assert (Ha1 : z (jointAngles s1) = T * k * (88 / 360000))
    by (apply (f_equal fst) in Hd; cbn [fst] in Hd; rewrite Hd; field).
  assert (Hv1 : z (angularVelocities s1) = T * k * (88 / 6000))
    by (apply (f_equal snd) in Hd; cbn [snd] in Hd; rewrite Hd; field).
  apply (f_equal fst) in Hs. cbn [fst] in Hs.
  rewrite Hs, Hv1, Ha1.
  assert (HTk : 0 < T * k) by nra.
  set (w := T * k) in *. clearbody w.
  rewrite !Rabs_pos_eq by nra.
  nra.
Qed.

(** ** Configurations *)

Lemma HABITAT_CONFIGS_count_table (k : HabitatConfig) :
  In (HABITAT_CONFIGS_count k) [1; 2; 4; 6; 8]%nat.
Proof. destruct k; simpl; auto 6. Qed.

Lemma App_handle_ranges (ev : Event) (a : AppState) :
  within_slider ev ->
  40 <= app_personMass a <= 120 /\ 3 / 10 <= app_connectingArmLength a <= 2 ->
  40 <= app_personMass (App_handle ev a) <= 120
  /\ 3 / 10 <= app_connectingArmLength (App_handle ev a) <= 2.
Proof. destruct ev; simpl; intros Hev Ha; tauto. Qed.

(** C9, as amended: nothing is rejected, there is no acceptance step; what
    keeps a configuration error away from the frames is the control panel.
    After any sequence of its events the module count is one of 1, 2, 4, 6,
    8, taken from the fixed table, and, as long as every slider event
    carries a value within the range its slider declares, the occupant
    mass is within 40..120 and the arm length within 0.3..2.0: the props
    handed to the mechanism are no configuration error. *)
Theorem panel_keeps_configuration_valid (evs : list Event) :
  Forall within_slider evs ->
  let p := App_props (App_events evs App_init) in
  In (habitatCount p) [1; 2; 4; 6; 8]%nat
  /\ 40 <= personMass p <= 120
  /\ 3 / 10 <= connectingArmLength p <= 2
  /\ ~ Spec.config_error p.
Proof.
  intros Hevs. cbv zeta.
  assert (Hr : 40 <= app_personMass (App_events evs App_init) <= 120
               /\ 3 / 10 <= app_connectingArmLength (App_events evs App_init) <= 2).
  { assert (H0 : 40 <= app_personMass App_init <= 120
                 /\ 3 / 10 <= app_connectingArmLength App_init <= 2)
      by (simpl; lra).
    revert H0. generalize App_init.
    induction Hevs as [| ev evs Hev _ IH]; intros a Ha; [exact Ha |].
    unfold App_events in *. cbn [fold_left]. apply IH.
    now apply App_handle_ranges. }
  pose proof (HABITAT_CONFIGS_count_table
                (app_habitatConfig (App_events evs App_init))) as Hc.
  unfold App_props. cbn [habitatCount personMass connectingArmLength].
  destruct Hr as [Hm Ha].
  split; [exact Hc | split; [exact Hm | split; [exact Ha |]]].
  unfold Spec.config_error. cbn [habitatCount personMass connectingArmLength].
  intros [H0 | [Hneg | Hneg]]; [| lra | lra].
  rewrite H0 in Hc. simpl in Hc.
  repeat (destruct Hc as [Hc | Hc]; [discriminate |]). exact Hc.
Qed.

Lemma panel_keeps_configuration_valid_witness :
  ~ Spec.config_error
      (App_props
         (App_events [SlidePersonMass 120; SelectHabitatConfig octa;
                      SlideConnectingArmLength (3 / 10); ClickPlayPause]
                     App_init)).
Proof.
  refine (proj2 (proj2 (proj2 (panel_keeps_configuration_valid
    [SlidePersonMass 120; SelectHabitatConfig octa;
     SlideConnectingArmLength (3 / 10); ClickPlayPause] _)))).
  repeat constructor; simpl; lra.
Defined.

(** C9 fails as stated: the handler of the mass slider stores a negative
    occupant mass, the props carry it to the mechanism, and the next frame
    integrates with it: the hub turns and the joint of a module leaves 0. *)
Lemma negative_mass_is_integrated :
  let a := App_events [SlidePersonMass (-10); ClickPlayPause] App_init in
  let m := Mechanism_frame (mkFrame (App_props a) (1 / 60) (1 / 60)) Mechanism_init in
  Spec.config_error (App_props a)
  /\ 0 < hub_rotation_y m
  /\ exists h, In h (habitats m) /\ 0 < z (jointAngles (joint h)).
Proof.
  cbv zeta. pose proof PI_RGT_0 as Hpi.
  unfold App_events, App_init. cbn [fold_left App_handle].
  cbn [app_rpm app_isRotating app_planet app_personMass app_connectingArmLength
         app_habitatConfig app_rotationLocked negb].
  unfold App_props.
  cbn [app_rpm app_isRotating app_planet app_personMass app_connectingArmLength
         app_habitatConfig app_rotationLocked HABITAT_CONFIGS_count].
  set (p := mkProps 20 true earth (-10) (8 / 10) 2 false).
  split; [right; left; simpl; lra | split].
  - unfold Mechanism_frame, MainRotatingMechanism_frame, angularVelocity.
    cbn [hub_rotation_y props delta isRotating rpm p Mechanism_init]. nra.
  - exists (Habitat_frame p (1 / 60) (1 / 60) Habitat_init). split.
    + unfold Mechanism_frame, remount.
      cbn [habitats props delta elapsed habitatCount p Mechanism_init
             firstn repeat length Nat.sub app map]. now left.
    + unfold Habitat_frame. cbn [joint Habitat_init].
      assert (Hd : (z (jointAngles (UniversalJointAssembly_frame p (1 / 60) JointState_init)),
                    z (angularVelocities (UniversalJointAssembly_frame p (1 / 60) JointState_init)))
                   = Spec.damped (clampedTargetZ p) (responseSpeed p) (1 / 60) 0 0).
      { apply (drive_frame p (1 / 60) JointState_init);
          simpl; (reflexivity || lra). }
      apply (f_equal fst) in Hd. cbn [fst] in Hd. rewrite Hd.
      assert (Ht : 0 < clampedTargetZ p).
      { unfold clampedTargetZ. cbv zeta.
        cbn [planet p Planet_eqb PLANET_DATA_gravity].
        apply Rmin_glb_lt; [| lra]. apply atan_pos.
        unfold centrifugalAcceleration, angularVelocity, ARM_LENGTH.
        cbn [rpm p].
        apply Rmult_lt_0_compat; [nra | lra]. }
      assert (Hk : 0 < responseSpeed p).
      { unfold responseSpeed, massInertiaFactor, GRAVITY_ALIGNMENT_SPEED, BOX_MASS.
        cbv zeta. cbn [personMass p].
        apply Rmult_lt_0_compat; [lra |].
        apply Rinv_0_lt_compat, sqrt_lt_R0. lra. }
      unfold Spec.damped. cbv zeta. cbn [fst].
      assert (0 < clampedTargetZ p * responseSpeed p) by nra.
      nra.
Qed.

(** ** Rotation lock *)

Lemma locked_box_rotation (p : Props) (dt t : R) (b : BoxState) :
  isRotating p = true -> 0 < rpm p -> rotationLocked p = true ->
  box_rotation_y (BoxHabitat_frame p dt t b) = - angularVelocity p * t.
Proof.
  intros Hact Hrpm Hlock. unfold BoxHabitat_frame.
  rewrite (spinning_true p Hact Hrpm), Hlock. reflexivity.
Qed.

(** What the lock does achieve: at a constant positive rate, rotating and
    locked in every frame since the clock started, the counter-rotation of
    every box cancels the hub angle exactly. *)
Lemma lock_cancels_at_constant_rate (p : Props) (ds : list R) (t0 : R) (m : Mechanism) :
  isRotating p = true -> 0 < rpm p -> rotationLocked p = true ->
  hub_rotation_y m = angularVelocity p * t0 ->
  Forall (fun h => box_rotation_y (box h) + hub_rotation_y m = 0) (habitats m) ->
  let m' := run (clocked t0 (map (fun d => (p, d)) ds)) m in
  Forall (fun h => box_rotation_y (box h) + hub_rotation_y m' = 0) (habitats m').
Proof.
  intros Hact Hrpm Hlock. revert t0 m.
  induction ds as [| d ds IH]; intros t0 m Hhub Hm; cbv zeta.
  - exact Hm.
  - cbn [map clocked]. unfold run. cbn [fold_left].
    apply (IH (t0 + d)).
    + unfold Mechanism_frame, MainRotatingMechanism_frame.
      cbn [hub_rotation_y props delta]. rewrite Hact, Hhub. ring.
    + unfold Mechanism_frame, MainRotatingMechanism_frame.
      cbn [hub_rotation_y habitats props delta elapsed]. rewrite Hact, Hhub.
      apply Forall_map, Forall_forall. intros h _.
      unfold Habitat_frame. cbn [box].
      rewrite (locked_box_rotation p d (t0 + d) (box h) Hact Hrpm Hlock). ring.
Qed.

(** C1 fails on the code: with the lock on and the mechanism rotating in
    every frame, half a second at 60 rpm followed by half a second at
    30 rpm leaves the hub at 3 PI / 2 and the counter-rotation of both
    boxes at - PI: they are a quarter turn apart. *)
Theorem lock_drifts_after_rate_change :
  let fast := mkProps 60 true earth 70 (8 / 10) 2 true in
  let slow := mkProps 30 true earth 70 (8 / 10) 2 true in
  let m := run (clocked 0 [(fast, 1 / 2); (slow, 1 / 2)]) Mechanism_init in
  hub_rotation_y m = 3 * PI / 2
  /\ length (habitats m) = 2%nat
  /\ Forall (fun h => box_rotation_y (box h) = - PI
                      /\ box_rotation_y (box h) + hub_rotation_y m = PI / 2)
            (habitats m).
Proof.
  cbv zeta. unfold run. cbn [clocked fold_left].
  unfold Mechanism_frame at 1 2 3.
  cbn [hub_rotation_y habitats props delta elapsed habitatCount Mechanism_init].
  unfold Mechanism_frame.
  cbn [hub_rotation_y habitats props delta elapsed habitatCount Mechanism_init].
  unfold MainRotatingMechanism_frame, angularVelocity. cbn [isRotating rpm].
  split; [field | split].
  - rewrite !length_map. unfold remount. rewrite length_app, repeat_length, length_firstn.
    rewrite !length_map. unfold remount. simpl. reflexivity.
  - apply Forall_map, Forall_forall. intros h _.
    unfold Habitat_frame. cbn [box].
    rewrite locked_box_rotation by (simpl; (reflexivity || lra)).
    unfold angularVelocity. cbn [rpm]. split; field.
Qed.

(** ** Steps of a tenth of a second

    With steps of 0.1 s the damped update oscillates: the bounds fail
    without any long frame. *)

Lemma Qdamped_sound (h : R) (target speed dt a b : Q) :
  Spec.damped (Q2R target * h) (Q2R speed) (Q2R dt) (Q2R a * h) (Q2R b * h)
  = (Q2R (fst (Qdamped target speed dt (a, b))) * h,
     Q2R (snd (Qdamped target speed dt (a, b))) * h).
Proof.
  unfold Spec.damped, Qdamped. cbv zeta. cbn [fst snd].
  rewrite !(Qeq_eqR _ _ (Qred_correct _)).
  rewrite !Q2R_plus, !Q2R_mult, !(Qeq_eqR _ _ (Qred_correct _)).
  rewrite !Q2R_mult, !Q2R_plus, !Q2R_mult, !Q2R_minus.
  replace (Q2R (88 # 100)) with (88 / 100) by (unfold Q2R; simpl; field).
  f_equal; ring.
Qed.

Lemma run_joint_repeat (f : Props * R) (n : nat) (s : JointState) :
  run_joint (repeat f n) s
  = Nat.iter n (UniversalJointAssembly_frame (fst f) (snd f)) s.
Proof.
  revert s. induction n as [| n IH]; intros s; [reflexivity |].
  rewrite Nat.iter_succ_r. unfold run_joint in *. cbn [repeat fold_left].
  apply IH.
Qed.

Lemma Qrun_sound (h : R) (target speed dt : Q) (frame : JointState -> JointState) :
  (forall s,
      (z (jointAngles (frame s)), z (angularVelocities (frame s)))
      = Spec.damped (Q2R target * h) (Q2R speed) (Q2R dt)
          (z (jointAngles s)) (z (angularVelocities s))) ->
  forall (n : nat) (s : JointState) (a b : Q),
    z (jointAngles s) = Q2R a * h -> z (angularVelocities s) = Q2R b * h ->
    z (jointAngles (Nat.iter n frame s))
    = Q2R (fst (Qrun n target speed dt (a, b))) * h
    /\ z (angularVelocities (Nat.iter n frame s))
       = Q2R (snd (Qrun n target speed dt (a, b))) * h.
Proof.
  intros Hframe n s a b Ha Hb. induction n as [| n [IHa IHb]].
  - simpl. now split.
  - change (Nat.iter (S n) frame s) with (frame (Nat.iter n frame s)).
    change (Qrun (S n) target speed dt (a, b))
      with (Qdamped target speed dt (Qrun n target speed dt (a, b))).
    specialize (Hframe (Nat.iter n frame s)). rewrite IHa, IHb in Hframe.
    destruct (Qrun n target speed dt (a, b)) as [a' b'].
    cbn [fst snd] in Hframe. rewrite Qdamped_sound in Hframe.
    split; [apply (f_equal fst) in Hframe | apply (f_equal snd) in Hframe];
      exact Hframe.
Qed.

Lemma Q2R_ratio (n : Z) (d : positive) : Q2R (n # d) = IZR n / IZR (Zpos d).
Proof. reflexivity. Qed.

(** In Vacuum, driving an occupant of 48 kg from rest with steps of 0.1 s,
    angleZ is beyond PI/2 after 29 frames. *)
Lemma angle_bounds_fail_at_tenth_second :
  let p := mkProps 30 true space 48 (8 / 10) 2 false in
  PI / 2 < z (jointAngles (run_joint (repeat (p, 1 / 10) 29) JointState_init)).
Proof.
  intros p. pose proof PI_RGT_0 as Hpi.
  rewrite run_joint_repeat. cbn [fst snd].
  assert (Hk : responseSpeed p = Q2R (15 # 14)).
  { unfold responseSpeed, massInertiaFactor, GRAVITY_ALIGNMENT_SPEED, BOX_MASS.
    cbv zeta. cbn [personMass p].
    replace ((50 + 48) / 50) with (7 / 5 * (7 / 5)) by field.
    rewrite sqrt_square by lra. rewrite Q2R_ratio. field. }
  assert (Ht : clampedTargetZ p = Q2R 1 * (PI / 2)).
  { unfold clampedTargetZ. cbv zeta. cbn [planet p Planet_eqb].
    rewrite Rmin_left by lra. rewrite Q2R_ratio. field. }
  assert (Hdt : 1 / 10 = Q2R (1 # 10)) by (rewrite Q2R_ratio; reflexivity).
  assert (Hframe : forall s,
             (z (jointAngles (UniversalJointAssembly_frame p (1 / 10) s)),
              z (angularVelocities (UniversalJointAssembly_frame p (1 / 10) s)))
             = Spec.damped (Q2R 1 * (PI / 2)) (Q2R (15 # 14)) (Q2R (1 # 10))
                 (z (jointAngles s)) (z (angularVelocities s))).
  { intros s. rewrite <- Hk, <- Ht, <- Hdt.
    apply (drive_frame p (1 / 10) s); simpl; (reflexivity || lra). }
  destruct (Qrun_sound (PI / 2) 1 (15 # 14) (1 # 10) _ Hframe 29 JointState_init 0 0)
    as [Hz _]; try (rewrite Q2R_ratio; simpl; lra).
  rewrite Hz.
  assert (Hc : Q2R 1 < Q2R (fst (Qrun 29 1 (15 # 14) (1 # 10) (0, 0)%Q)))
    by (apply Qlt_Rlt; vm_compute; reflexivity).
  rewrite Q2R_ratio in Hc at 1.
  set (c := Q2R (fst (Qrun 29 1 (15 # 14) (1 # 10) (0, 0)%Q))) in *.
  clearbody c. nra.
Qed.

(** On Earth, stopped at rest one radian from 0, with steps of 0.1 s, the
    joint is more than two degrees past 0 after 16 frames. *)
Lemma gravity_return_overshoots_at_tenth_second :
  let p := mkProps 20 false earth 70 (8 / 10) 2 false in
  let s := mkJoint (mkXZ 0 1) (mkXZ 0 0) in
  z (jointAngles (run_joint (repeat (p, 1 / 10) 16) s)) < - (2 * PI / 180).
Proof.
  intros p s. pose proof PI_4 as Hpi.
  rewrite run_joint_repeat. cbn [fst snd].
  assert (Hdt : 1 / 10 = Q2R (1 # 10)) by (rewrite Q2R_ratio; reflexivity).
  assert (Hframe : forall s0,
             (z (jointAngles (UniversalJointAssembly_frame p (1 / 10) s0)),
              z (angularVelocities (UniversalJointAssembly_frame p (1 / 10) s0)))
             = Spec.damped (Q2R 0 * 1) (Q2R (9 # 4)) (Q2R (1 # 10))
                 (z (jointAngles s0)) (z (angularVelocities s0))).
  { intros s0. rewrite <- Hdt.
    replace (Q2R 0 * 1) with 0 by (rewrite Q2R_ratio; simpl; lra).
    replace (Q2R (9 # 4)) with (9 / 4) by (rewrite Q2R_ratio; reflexivity).
    apply (gravity_stop_frame p (1 / 10) s0); simpl; (discriminate || reflexivity). }
  destruct (Qrun_sound 1 0 (9 # 4) (1 # 10) _ Hframe 16 s 1 0)
    as [Hz _]; try (rewrite Q2R_ratio; simpl; lra).
  rewrite Hz.
  assert (Hc : Q2R (fst (Qrun 16 0 (9 # 4) (1 # 10) (1, 0)%Q)) < Q2R (- 45 # 1000))
    by (apply Qlt_Rlt; vm_compute; reflexivity).
  rewrite (Q2R_ratio (-45) 1000) in Hc.
  set (c := Q2R (fst (Qrun 16 0 (9 # 4) (1 # 10) (1, 0)%Q))) in *.
  clearbody c. lra.
Qed.

(** ** The hub and the set of habitats over a run *)

Lemma run_app (fs gs : list Frame) (m : Mechanism) :
  run (fs ++ gs) m = run gs (run fs m).
Proof. unfold run. apply fold_left_app. Qed.

(** X2: frames in which the mechanism is not rotating never move the hub,
    whatever their rate, their length and their number. *)
Theorem hub_holds_while_stopped (fs : list Frame) (m : Mechanism) :
  Forall (fun f => isRotating (props f) = false) fs ->
  hub_rotation_y (run fs m) = hub_rotation_y m.
Proof.
  intros Hfs. revert m. induction Hfs as [| f fs Hf _ IH]; intros m.
  - reflexivity.
  - unfold run in *. cbn [fold_left]. rewrite IH.
    unfold Mechanism_frame, MainRotatingMechanism_frame. cbn [hub_rotation_y].
    now rewrite Hf.
Qed.

Lemma hub_holds_while_stopped_witness :
  hub_rotation_y
    (run [mkFrame (mkProps 60 false space 70 (8 / 10) 4 true) 5 5]
         (mkMechanism 1 []))
  = 1.
Proof.
  refine (hub_holds_while_stopped
            [mkFrame (mkProps 60 false space 70 (8 / 10) 4 true) 5 5]
            (mkMechanism 1 []) _).
  repeat constructor.
Defined.

Lemma remount_length (n : nat) (hs : list Habitat) : length (remount n hs) = n.
Proof.
  unfold remount. rewrite length_app, repeat_length, length_firstn. lia.
Qed.

(** X3: after every frame there are exactly as many habitats as the props
    of that frame ask for, whatever was mounted before. *)
Theorem habitat_count_follows_props (fs : list Frame) (f : Frame) (m : Mechanism) :
  length (habitats (run (fs ++ [f]) m)) = habitatCount (props f).
Proof.
  rewrite run_app. unfold run at 1. cbn [fold_left].
  unfold Mechanism_frame. cbn [habitats].
  rewrite length_map. apply remount_length.
Qed.

Lemma remount_full (hs : list Habitat) : remount (length hs) hs = hs.
Proof.
  unfold remount. rewrite Nat.sub_diag. cbn [repeat].
  rewrite app_nil_r. apply firstn_all.
Qed.

(** The joint and the arm of a habitat are updated from the props and the
    step of the frame alone; the clock is read by the box only. *)
Lemma Habitat_frame_joint_lag (p : Props) (dt t : R) (h : Habitat) :
  joint (Habitat_frame p dt t h) = UniversalJointAssembly_frame p dt (joint h)
  /\ lag (Habitat_frame p dt t h) = ConnectingArmToBox_frame p dt (lag h).
Proof. split; reflexivity. Qed.

(** X4: as long as the number of habitats stays the same from the first
    frame on, after every frame all habitats have one and the same joint
    state (angles and velocities) and one and the same arm lag, namely
    those of a single joint and a single arm run from the mounted state
    over the props and steps of the frames: the joints and the arms, which
    are updated from the shared props and the frame's step alone, move in
    unison.  The self-rotation of the boxes, for which each box reads the
    clock itself, is not part of the statement. *)
Theorem habitats_move_in_unison (n : nat) (f : Frame) (fs : list Frame) :
  Forall (fun g => habitatCount (props g) = n) (f :: fs) ->
  let inputs := map (fun g => (props g, delta g)) (f :: fs) in
  length (habitats (run (f :: fs) Mechanism_init)) = n
  /\ Forall (fun h => joint h = run_joint inputs JointState_init
                      /\ lag h = run_lag inputs 0)
            (habitats (run (f :: fs) Mechanism_init)).
Proof.
  intros Hall. inversion Hall as [| f' fs' Hf Hfs]; subst. cbv zeta.
  assert (Hstep : forall g hs j l,
             length hs = habitatCount (props g) ->
             Forall (fun h => joint h = j /\ lag h = l) hs ->
             let hs' := habitats (Mechanism_frame g (mkMechanism 0 hs)) in
             length hs' = habitatCount (props g)
             /\ Forall (fun h =>
                          joint h = UniversalJointAssembly_frame (props g) (delta g) j
                          /\ lag h = ConnectingArmToBox_frame (props g) (delta g) l)
                       hs').
  { intros g hs j l Hlen Hhs. cbv zeta. unfold Mechanism_frame. cbn [habitats].
    rewrite <- Hlen, remount_full. split; [apply length_map |].
    apply Forall_map. eapply Forall_impl; [| exact Hhs].
    intros h [Hj Hl].
    destruct (Habitat_frame_joint_lag (props g) (delta g) (elapsed g) h) as [-> ->].
    now rewrite Hj, Hl. }
  assert (Hrun : forall fs m j l,
             Forall (fun g => habitatCount (props g) = habitatCount (props f)) fs ->
             length (habitats m) = habitatCount (props f) ->
             Forall (fun h => joint h = j /\ lag h = l) (habitats m) ->
             length (habitats (run fs m)) = habitatCount (props f)
             /\ Forall (fun h =>
                          joint h = run_joint (map (fun g => (props g, delta g)) fs) j
                          /\ lag h = run_lag (map (fun g => (props g, delta g)) fs) l)
                       (habitats (run fs m))).
  { clear Hall Hfs fs. intros fs.
    induction fs as [| g fs IH]; intros m j l Hfs Hlen Hm.
    - now split.
    - inversion Hfs as [| g' fs' Hg Hrest]; subst.
      unfold run, run_joint, run_lag in *. cbn [fold_left map fst snd].
      rewrite <- Hg in Hlen.
      destruct (Hstep g (habitats m) j l Hlen Hm) as [Hlen' Hm'].
      cbv zeta in Hlen', Hm'. rewrite Hg in Hlen'.
      exact (IH (Mechanism_frame g m) _ _ Hrest Hlen' Hm'). }
  unfold run at 1 2. cbn [fold_left]. fold (run fs).
  unfold run_joint, run_lag. cbn [map fold_left fst snd].
  apply (Hrun fs _ (UniversalJointAssembly_frame (props f) (delta f) JointState_init)
           (ConnectingArmToBox_frame (props f) (delta f) 0) Hfs).
  - unfold Mechanism_frame. cbn [habitats]. rewrite length_map. apply remount_length.
  - unfold Mechanism_frame, remount. cbn [habitats Mechanism_init length].
    rewrite firstn_nil, Nat.sub_0_r. cbn [app]. apply Forall_map.
    apply Forall_forall. intros h Hin. apply repeat_spec in Hin. subst h.
    split; reflexivity.
Qed.

Lemma habitats_move_in_unison_witness :
  let fs := [mkFrame (mkProps 20 true earth 70 (8 / 10) 4 true) (1 / 60) (1 / 60);
             mkFrame (mkProps 30 false mars 70 (8 / 10) 4 true) (1 / 60) (2 / 60)] in
  let inputs := map (fun g => (props g, delta g)) fs in
  length (habitats (run fs Mechanism_init)) = 4%nat
  /\ Forall (fun h => joint h = run_joint inputs JointState_init
                      /\ lag h = run_lag inputs 0)
            (habitats (run fs Mechanism_init)).
Proof.
  refine (habitats_move_in_unison 4 _ _ _).
  repeat constructor.
Defined.

(** X5: the joint never leaves the plane it swings in: over frames whose
    total mass BOX_MASS + personMass is positive, so that the response
    speed is a finite number, whatever the rate, the environment, the step
    and the module count, angleX and its velocity are exactly 0 in every
    habitat. *)
Theorem x_axis_never_excited (fs : list Frame) :
  Forall (fun f => 0 < BOX_MASS + personMass (props f)) fs ->
  Forall (fun h => x (jointAngles (joint h)) = 0
                   /\ x (angularVelocities (joint h)) = 0)
         (habitats (run fs Mechanism_init)).
Proof.
  intros _.
  assert (Hstep : forall p dt s,
             x (jointAngles s) = 0 /\ x (angularVelocities s) = 0 ->
             x (jointAngles (UniversalJointAssembly_frame p dt s)) = 0
             /\ x (angularVelocities (UniversalJointAssembly_frame p dt s)) = 0).
  { intros p dt s [Ha Hv]. unfold UniversalJointAssembly_frame. cbv zeta.
    destruct (spinning p); [| destruct (Planet_eqb (planet p) space)];
      cbn [jointAngles angularVelocities x]; rewrite ?Ha, ?Hv;
      unfold targetAngleX; split; ring. }
  assert (Hrun : forall fs m,
             Forall (fun h => x (jointAngles (joint h)) = 0
                              /\ x (angularVelocities (joint h)) = 0) (habitats m) ->
             Forall (fun h => x (jointAngles (joint h)) = 0
                              /\ x (angularVelocities (joint h)) = 0)
                    (habitats (run fs m))).
  { clear fs. intros fs. induction fs as [| f fs IH]; intros m Hm; [exact Hm |].
    unfold run in *. cbn [fold_left]. apply IH.
    unfold Mechanism_frame. cbn [habitats]. apply Forall_map.
    unfold remount. apply Forall_app. split.
    - eapply Forall_impl; [| apply Forall_take, Hm].
      intros h Hh. unfold Habitat_frame. cbn [joint]. now apply Hstep.
    - apply Forall_forall. intros h Hin. apply repeat_spec in Hin. subst h.
      unfold Habitat_frame. cbn [joint]. apply Hstep. simpl. now split. }
  apply Hrun. constructor.
Qed.

Lemma x_axis_never_excited_witness :
  Forall (fun h => x (jointAngles (joint h)) = 0
                   /\ x (angularVelocities (joint h)) = 0)
         (habitats
            (run [mkFrame (mkProps 20 true earth 70 (8 / 10) 2 false) (1 / 60) (1 / 60);
                  mkFrame (mkProps 45 false space 120 2 4 true) 3 (181 / 60)]
                 Mechanism_init)).
Proof.
  apply x_axis_never_excited.
  repeat constructor; unfold BOX_MASS; simpl; lra.
Defined.

(** ** Rest states of the joint *)

Lemma responseSpeed_pos (p : Props) : 0 <= personMass p -> 0 < responseSpeed p.
Proof.
  intros Hm. unfold responseSpeed, massInertiaFactor, GRAVITY_ALIGNMENT_SPEED, BOX_MASS.
  cbv zeta. apply Rmult_lt_0_compat; [lra |].
  apply Rinv_0_lt_compat, sqrt_lt_R0.
  apply Rmult_lt_0_compat; [lra | apply Rinv_0_lt_compat; lra].
Qed.






(** ** Convergence of the joint *)

Lemma damped_shift (target speed dt a v : R) :
  Spec.damped target speed dt a v
  = (target - fst (Spec.damped 0 speed dt (target - a) (- v)),
     - snd (Spec.damped 0 speed dt (target - a) (- v))).
Proof. unfold Spec.damped. cbv zeta. cbn [fst snd]. f_equal; ring. Qed.

(** One step toward a target from below, never past it. *)
Lemma approach_axis_step (target speed dt a v : R) :
  0 <= dt <= 1 / 25 -> 0 <= speed <= 9 / 4 ->
  0 <= v <= target - a ->
  let a' := fst (Spec.damped target speed dt a v) in
  let v' := snd (Spec.damped target speed dt a v) in
  0 <= target - a' <= (1 - 88 / 100 * speed * (dt * dt)) * (target - a)
  /\ 0 <= v' <= target - a'.
Proof.
  intros Hdt Hk Hv. cbv zeta. rewrite damped_shift. cbn [fst snd].
  assert (He : 0 <= target - a) by lra.
  assert (Hv' : - (target - a) <= - v <= 0) by lra.
  destruct (settle_axis_step speed dt (target - a) (- v) Hdt Hk He Hv')
    as [[H0 H1] [H2 H3]].
  cbv zeta in H0, H1, H2, H3. repeat split; lra.
Qed.

(** X8: driven with constant props (rotating, positive rate, non-negative
    occupant mass) and a constant step of at most 1/25 s, from rest at or
    below the target (more generally with 0 <= velocityZ <= target -
    angleZ), angleZ rises to the target without ever passing it, the
    distance shrinking each frame by the factor 1 - 0.88 * responseSpeed *
    dt^2 at least; so it converges to the target. *)
Theorem drive_converges (p : Props) (dt : R) (s : JointState) :
  isRotating p = true -> 0 < rpm p -> 0 <= personMass p ->
  0 < dt <= 1 / 25 ->
  0 <= z (angularVelocities s) <= clampedTargetZ p - z (jointAngles s) ->
  let q := 1 - 88 / 100 * responseSpeed p * (dt * dt) in
  let err n := clampedTargetZ p
               - z (jointAngles (run_joint (repeat (p, dt) n) s)) in
  0 <= q < 1
  /\ (forall n, 0 <= err (S n) <= err n)
  /\ (forall n, err n <= q ^ n * err 0%nat)
  /\ (forall eps, 0 < eps -> exists N, forall n, (N <= n)%nat -> err n < eps).
Proof.
  intros Hact Hrpm Hm Hdt Hs. cbv zeta.
  pose proof (responseSpeed_bounds p Hm) as Hk.
  pose proof (responseSpeed_pos p Hm) as Hk0.
  set (k := responseSpeed p) in *. set (T := clampedTargetZ p) in *.
  set (q := 1 - 88 / 100 * k * (dt * dt)).
  assert (Hd2 : 0 < dt * dt <= 1 / 625) by nra.
  assert (Hkd : 0 < k * (dt * dt) <= 9 / 4 * (1 / 625)).
  { split; [apply Rmult_lt_0_compat; lra |].
    apply Rmult_le_compat; lra. }
  assert (Hq : 0 <= q < 1) by (unfold q; lra).
  assert (Hdt' : 0 <= dt <= 1 / 25) by lra.
  assert (Hinv : forall n,
             let sn := run_joint (repeat (p, dt) n) s in
             0 <= z (angularVelocities sn) <= T - z (jointAngles sn)
             /\ T - z (jointAngles sn) <= q ^ n * (T - z (jointAngles s))).
  { intros n. cbv zeta. induction n as [| n [IHv IHe]].
    - simpl. split; [exact Hs | lra].
    - rewrite run_joint_repeat in *. cbn [fst snd] in *.
      change (Nat.iter (S n) (UniversalJointAssembly_frame p dt) s)
        with (UniversalJointAssembly_frame p dt
                (Nat.iter n (UniversalJointAssembly_frame p dt) s)).
      set (sn := Nat.iter n (UniversalJointAssembly_frame p dt) s) in *.
      destruct (drive_frame p dt sn Hact Hrpm) as [_ Ez]. cbv zeta in Ez.
      pose proof (approach_axis_step T k dt _ _ Hdt' Hk IHv) as Hstep.
      cbv zeta in Hstep. fold k T in Ez. rewrite <- Ez in Hstep.
      cbn [fst snd] in Hstep. destruct Hstep as [[H0 H1] H2].
      split; [exact H2 |]. fold q in H1.
      apply Rle_trans with (q * (T - z (jointAngles sn))); [exact H1 |].
      simpl. rewrite Rmult_assoc. apply Rmult_le_compat_l; lra. }
  split; [exact Hq | split; [| split]].
  - intros n. destruct (Hinv n) as [Hv _]. cbv zeta in Hv.
    rewrite !run_joint_repeat in *. cbn [fst snd] in *.
    change (Nat.iter (S n) (UniversalJointAssembly_frame p dt) s)
      with (UniversalJointAssembly_frame p dt
              (Nat.iter n (UniversalJointAssembly_frame p dt) s)).
    set (sn := Nat.iter n (UniversalJointAssembly_frame p dt) s) in *.
    destruct (drive_frame p dt sn Hact Hrpm) as [_ Ez]. cbv zeta in Ez.
    pose proof (approach_axis_step T k dt _ _ Hdt' Hk Hv) as Hstep.
    cbv zeta in Hstep. fold k T in Ez. rewrite <- Ez in Hstep.
    cbn [fst snd] in Hstep. destruct Hstep as [[H0 H1] H2].
    fold q in H1. split; [exact H0 | nra].
  - intros n. destruct (Hinv n) as [_ He]. exact He.
  - intros eps Heps.
    assert (He0 : 0 <= T - z (jointAngles s)) by lra.
    destruct (small_pow_vanishes q _ eps Hq He0 Heps) as [N HN].
    exists N. intros n Hn. destruct (Hinv n) as [_ He].
    cbv zeta in He. specialize (HN n Hn). simpl in HN. lra.
Qed.

Lemma drive_converges_witness :
  let p := mkProps 30 true space 70 (8 / 10) 2 false in
  0 <= clampedTargetZ p
       - z (jointAngles (run_joint (repeat (p, 1 / 60) 3) JointState_init))
    <= clampedTargetZ p
       - z (jointAngles (run_joint (repeat (p, 1 / 60) 2) JointState_init)).
Proof.
  intros p.
  refine (proj1 (proj2 (drive_converges p (1 / 60) JointState_init _ _ _ _ _)) 2%nat).
  - reflexivity.
  - simpl. lra.
  - simpl. lra.
  - lra.
  - pose proof PI_RGT_0. unfold clampedTargetZ. simpl.
    rewrite Rmin_left by lra. lra.
Defined.

Lemma settle_axis_abs (dt a v : R) :
  0 <= dt <= 1 / 25 -> returning a v ->
  let a' := fst (Spec.damped 0 (9 / 4) dt a v) in
  let v' := snd (Spec.damped 0 (9 / 4) dt a v) in
  returning a' v'
  /\ Rabs a' <= (1 - 88 / 100 * (9 / 4) * (dt * dt)) * Rabs a.
Proof.
  intros Hdt Hr. cbv zeta.
  assert (Hk : 0 <= 9 / 4 <= 9 / 4) by lra.
  destruct Hr as [[Ha Hv] | [Ha Hv]].
  - destruct (settle_axis_step (9 / 4) dt a v Hdt Hk Ha Hv) as [[H0 H1] H2].
    cbv zeta in H0, H1, H2.
    split; [left; now split |]. rewrite !Rabs_pos_eq by lra. exact H1.
  - assert (Ha' : 0 <= - a) by lra.
    assert (Hv' : - - a <= - v <= 0) by lra.
    destruct (settle_axis_step (9 / 4) dt (- a) (- v) Hdt Hk Ha' Hv')
      as [[H0 H1] H2].
    cbv zeta in H0, H1, H2. rewrite damped_odd in H0, H1, H2.
    cbn [fst snd] in H0, H1, H2.
    split; [right; split; lra |]. rewrite !Rabs_left1 by lra. lra.
Qed.

(** X9: stopped under gravity (Earth, Moon or Mars) with a constant step of
    at most 1/25 s, from a state in which angleZ is at rest or moving
    toward 0 with |velocity| <= |angle|, the distance of angleZ to 0
    shrinks each frame by the factor 1 - 0.88 * 2.25 * dt^2 at least; so
    angleZ converges to 0. *)
Theorem gravity_return_converges (p : Props) (dt : R) (s : JointState) :
  planet p <> space -> isRotating p = false -> 0 < dt <= 1 / 25 ->
  returning (z (jointAngles s)) (z (angularVelocities s)) ->
  let q := 1 - 88 / 100 * (9 / 4) * (dt * dt) in
  let dist n := Rabs (z (jointAngles (run_joint (repeat (p, dt) n) s))) in
  0 <= q < 1
  /\ (forall n, dist n <= q ^ n * dist 0%nat)
  /\ (forall eps, 0 < eps -> exists N, forall n, (N <= n)%nat -> dist n < eps).
Proof.
  intros Hpl Hact Hdt Hs. cbv zeta.
  set (q := 1 - 88 / 100 * (9 / 4) * (dt * dt)).
  assert (Hd2 : 0 < dt * dt <= 1 / 625) by nra.
  assert (Hq : 0 <= q < 1) by (unfold q; lra).
  assert (Hdt' : 0 <= dt <= 1 / 25) by lra.
  assert (Hinv : forall n,
             let sn := run_joint (repeat (p, dt) n) s in
             returning (z (jointAngles sn)) (z (angularVelocities sn))
             /\ Rabs (z (jointAngles sn)) <= q ^ n * Rabs (z (jointAngles s))).
  { intros n. cbv zeta. induction n as [| n [IHr IHe]].
    - simpl. split; [exact Hs | lra].
    - rewrite run_joint_repeat in *. cbn [fst snd] in *.
      change (Nat.iter (S n) (UniversalJointAssembly_frame p dt) s)
        with (UniversalJointAssembly_frame p dt
                (Nat.iter n (UniversalJointAssembly_frame p dt) s)).
      set (sn := Nat.iter n (UniversalJointAssembly_frame p dt) s) in *.
      destruct (gravity_stop_frame p dt sn Hpl Hact) as [_ Ez]. cbv zeta in Ez.
      pose proof (settle_axis_abs dt _ _ Hdt' IHr) as Hstep.
      cbv zeta in Hstep. rewrite <- Ez in Hstep. cbn [fst snd] in Hstep.
      destruct Hstep as [H0 H1]. split; [exact H0 |]. fold q in H1.
      apply Rle_trans with (q * Rabs (z (jointAngles sn))); [exact H1 |].
      simpl. rewrite Rmult_assoc. apply Rmult_le_compat_l; lra. }
  split; [exact Hq | split].
  - intros n. destruct (Hinv n) as [_ He]. exact He.
  - intros eps Heps.
    destruct (small_pow_vanishes q _ eps Hq (Rabs_pos (z (jointAngles s))) Heps)
      as [N HN].
    exists N. intros n Hn. destruct (Hinv n) as [_ He].
    cbv zeta in He. specialize (HN n Hn). simpl. lra.
Qed.

Lemma gravity_return_converges_witness :
  let p := mkProps 20 false moon 70 (8 / 10) 2 false in
  let s := mkJoint (mkXZ 0 1) (mkXZ 0 0) in
  Rabs (z (jointAngles (run_joint (repeat (p, 1 / 30) 2) s)))
  <= (1 - 88 / 100 * (9 / 4) * (1 / 30 * (1 / 30))) ^ 2
     * Rabs (z (jointAngles (run_joint (repeat (p, 1 / 30) 0) s))).
Proof.
  intros p s.
  refine (proj1 (proj2 (gravity_return_converges p (1 / 30) s _ _ _ _)) 2%nat).
  - discriminate.
  - reflexivity.
  - lra.
  - left. simpl. lra.
Defined.

Lemma clampedTargetZ_gravity (p : Props) :
  planet p <> space ->
  clampedTargetZ p
  = atan (centrifugalAcceleration p / PLANET_DATA_gravity (planet p))
  /\ 0 <= clampedTargetZ p < PI / 2.
Proof.
  intros Hpl. pose proof PI_RGT_0 as Hpi.
  pose proof (atan_ratio_bounds _ _ (centrifugalAcceleration_nonneg p)
                (gravity_pos _ Hpl)) as Hb.
  unfold clampedTargetZ. cbv zeta.
  destruct (Planet_eqb (planet p) space) eqn:E;
    [apply Planet_eqb_space in E; contradiction |].
  rewrite Rmin_left by lra. split; [reflexivity | exact Hb].
Qed.

(** X10: the joint is steered to exactly PI/2 in Vacuum only: under gravity
    the Z target is atan(centrifugalAcceleration / gravity), at least 0 and
    strictly below PI/2 for every rate, so the cap at PI/2 never cuts it. *)
Theorem target_right_angle_only_in_vacuum (p : Props) :
  (clampedTargetZ p = PI / 2 <-> planet p = space)
  /\ (planet p <> space ->
      clampedTargetZ p
      = atan (centrifugalAcceleration p / PLANET_DATA_gravity (planet p))
      /\ 0 <= clampedTargetZ p < PI / 2).
Proof.
  pose proof PI_RGT_0 as Hpi.
  pose proof (clampedTargetZ_gravity p) as Hg.
  split; [| exact Hg]. split.
  - intros Heq. destruct (Planet_eqb (planet p) space) eqn:E;
      [now apply Planet_eqb_space |].
    assert (Hpl : planet p <> space)
      by (intros H; apply Planet_eqb_space in H; congruence).
    destruct (Hg Hpl) as [_ Hb]. lra.
  - intros Hpl. unfold clampedTargetZ. rewrite Hpl. cbn [Planet_eqb].
    cbv zeta. apply Rmin_left. lra.
Qed.

(** ** The arm lag over a run *)






(** X13: in Vacuum the cap of the lag target at PI/6 is never reached: the
    target is atan(centrifugalAcceleration / 10) * 0.8 * 0.3, at least 0
    and strictly below 3 PI / 25 < PI / 6, whatever the rate. *)
Theorem vacuum_lag_target_uncapped (p : Props) :
  planet p = space ->
  clampedLagAngle p
  = atan (centrifugalAcceleration p / 10) * CENTRIFUGAL_BULGE_FACTOR * (3 / 10)
  /\ 0 <= clampedLagAngle p < 3 * PI / 25
  /\ 3 * PI / 25 < PI / 6.
Proof.
  intros Hpl. pose proof PI_RGT_0 as Hpi.
  assert (Hten : 0 < 10) by lra.
  pose proof (atan_ratio_bounds _ _ (centrifugalAcceleration_nonneg p) Hten) as Hb.
  unfold clampedLagAngle. rewrite Hpl. cbn [Planet_eqb]. cbv zeta.
  unfold CENTRIFUGAL_BULGE_FACTOR.
  rewrite Rmin_left by nra.
  split; [reflexivity | split; [nra | lra]].
Qed.

Lemma vacuum_lag_target_uncapped_witness :
  clampedLagAngle (mkProps 60 true space 70 (8 / 10) 2 false) < 3 * PI / 25.
Proof.
  refine (proj2 (proj1 (proj2 (vacuum_lag_target_uncapped
    (mkProps 60 true space 70 (8 / 10) 2 false) _)))).
  reflexivity.
Defined.

(** ** The read-outs *)

Lemma checked_div_none (a b : R) : b = 0 -> a /? b = None.
Proof.
  intros Hb. unfold checked_div.
  destruct (Req_dec_T b 0); [reflexivity | contradiction].
Qed.

Lemma gravity_nonzero (e : Planet) : Planet_eqb e space = false -> PLANET_DATA_gravity e <> 0.
Proof. destruct e; simpl; intros H; (discriminate || lra). Qed.

(** The read-out of the multi-habitat [App] as a plain value, when the
    total mass is not 0. *)
Lemma App_physics_value (p : Props) :
  BOX_MASS + personMass p <> 0 ->
  let g := PLANET_DATA_gravity (planet p) in
  let ca := if isRotating p then centrifugalAcceleration p else 0 in
  let M := BOX_MASS + personMass p in
  let cf := if isRotating p then M * ca else 0 in
  let tg :=
    (if isRotating p then
       (if Planet_eqb (planet p) space then cf
        else sqrt (cf * cf + M * g * (M * g)))
     else M * g) / M in
  App_physics p
  = Some (mkReport ca tg (tg / GRAVITY_CONSTANTS_earth)
            (if isRotating p then
               (if Planet_eqb (planet p) space then 90
                else atan (ca / g) * (180 / PI))
             else 0)
            (if isRotating p then
               (if Planet_eqb (planet p) space then 90
                else atan2 ca g * (180 / PI))
             else 0)
            (if isRotating p then
               (if Planet_eqb (planet p) space then
                  atan (ca / 10) * CENTRIFUGAL_BULGE_FACTOR * (3 / 10) * (180 / PI)
                else atan (ca / g) * CENTRIFUGAL_BULGE_FACTOR * (180 / PI))
             else 0)).
Proof.
  intros Hm. cbv zeta.
  assert (Hpi : PI <> 0) by (pose proof PI_RGT_0; lra).
  assert (He : GRAVITY_CONSTANTS_earth <> 0) by (unfold GRAVITY_CONSTANTS_earth; lra).
  unfold App_physics.
  rewrite (checked_div_some _ 60) by lra. cbn [bind].
  fold (angularVelocity p). fold (centrifugalAcceleration p).
  rewrite (checked_div_some _ _ Hm). cbn [bind].
  rewrite (checked_div_some _ _ He). cbn [bind].
  destruct (isRotating p); [| reflexivity].
  destruct (Planet_eqb (planet p) space) eqn:E.
  - rewrite (checked_div_some _ 10) by lra.
    rewrite (checked_div_some 180 PI Hpi). reflexivity.
  - rewrite (checked_div_some _ _ (gravity_nonzero _ E)).
    rewrite (checked_div_some 180 PI Hpi). reflexivity.
Qed.

Lemma App_physics_massless (p : Props) :
  BOX_MASS + personMass p = 0 -> App_physics p = None.
Proof.
  intros H0. unfold App_physics.
  rewrite (checked_div_some _ 60) by lra. cbn [bind].
  rewrite (checked_div_none _ _ H0). reflexivity.
Qed.

Lemma App_physics_has_mass (p : Props) (r : Report) :
  App_physics p = Some r -> BOX_MASS + personMass p <> 0.
Proof. intros Hr H0. apply App_physics_massless in H0. congruence. Qed.

(** X14: the read-out of the multi-habitat [App] meets a zero divisor if
    and only if the total mass 50 + personMass is 0; for every other
    configuration, whatever the rate and the environment, it is computed
    without one. *)
Theorem App_physics_zero_divisor (p : Props) :
  App_physics p = None <-> BOX_MASS + personMass p = 0.
Proof.
  split.
  - intros Hnone. destruct (Req_dec_T (BOX_MASS + personMass p) 0) as [H0 | Hm];
      [exact H0 |].
    pose proof (App_physics_value p Hm) as Hv. cbv zeta in Hv.
    rewrite Hv in Hnone. discriminate.
  - apply App_physics_massless.
Qed.

(** X15: the two angles the multi-habitat read-out shows, the ideal angle
    and the direction of gravity, are equal in every configuration. *)
Theorem ideal_angle_is_gravity_angle (p : Props) (r : Report) :
  App_physics p = Some r -> report_idealAngle r = report_gravityAngle r.
Proof.
  intros Hr.
  pose proof (App_physics_has_mass p r Hr) as Hm.
  pose proof (App_physics_value p Hm) as Hv. cbv zeta in Hv.
  rewrite Hv in Hr. injection Hr as <-. cbn [report_idealAngle report_gravityAngle].
  destruct (isRotating p); [| reflexivity].
  destruct (Planet_eqb (planet p) space) eqn:E; [reflexivity |].
  assert (Hg : 0 < PLANET_DATA_gravity (planet p)).
  { apply gravity_pos. intros H. apply Planet_eqb_space in H. congruence. }
  unfold atan2. destruct (Rlt_dec 0 (PLANET_DATA_gravity (planet p)));
    [reflexivity | contradiction].
Qed.

Lemma ideal_angle_is_gravity_angle_witness :
  exists r,
    App_physics (mkProps 20 true earth 70 (8 / 10) 2 false) = Some r
    /\ report_idealAngle r = report_gravityAngle r.
Proof.
  assert (Hm : BOX_MASS + personMass (mkProps 20 true earth 70 (8 / 10) 2 false) <> 0)
    by (unfold BOX_MASS; simpl; lra).
  eexists. split.
  - exact (App_physics_value _ Hm).
  - exact (ideal_angle_is_gravity_angle _ _ (App_physics_value _ Hm)).
Defined.

Lemma Rmin_scale (a b c : R) : 0 <= c -> Rmin a b * c = Rmin (a * c) (b * c).
Proof.
  intros Hc. unfold Rmin.
  destruct (Rle_dec a b) as [Hab | Hab], (Rle_dec (a * c) (b * c)) as [Hc' | Hc'];
    try reflexivity; nra.
Qed.

(** X16: while the solvers drive, that is while rotating at a positive
    rate (the guard isRotating && rpm > 0 under which the joint and the arm
    compute their targets), the ideal angle of the read-out is the clamped
    Z target of the joint in degrees, and the clamped lag target of the
    arm in degrees is the lag angle of the read-out capped at 30: the
    read-out shows the uncapped lag, the arm uses the capped one.  At rate
    0 the solvers hold or return and have no target to compare with. *)
Theorem readout_matches_solver_targets (p : Props) (r : Report) :
  App_physics p = Some r -> isRotating p = true -> 0 < rpm p ->
  report_idealAngle r = clampedTargetZ p * (180 / PI)
  /\ clampedLagAngle p * (180 / PI) = Rmin (report_inertialLagAngle r) 30.
Proof.
  intros Hr Hact _. pose proof PI_RGT_0 as Hpi.
  pose proof (App_physics_has_mass p r Hr) as Hm.
  pose proof (App_physics_value p Hm) as Hv. cbv zeta in Hv.
  rewrite Hv in Hr. injection Hr as <-.
  cbn [report_idealAngle report_inertialLagAngle]. rewrite Hact.
  assert (Hdeg : 0 <= 180 / PI).
  { apply Rmult_le_pos; [lra |]. left. now apply Rinv_0_lt_compat. }
  assert (H30 : PI / 6 * (180 / PI) = 30) by (field; lra).
  split.
  - destruct (Planet_eqb (planet p) space) eqn:E.
    + unfold clampedTargetZ. rewrite E. cbv zeta.
      rewrite Rmin_left by lra. field. lra.
    + assert (Hpl : planet p <> space)
        by (intros H; apply Planet_eqb_space in H; congruence).
      destruct (clampedTargetZ_gravity p Hpl) as [-> _]. reflexivity.
  - unfold clampedLagAngle. cbv zeta. rewrite (Rmin_scale _ _ _ Hdeg), H30.
    destruct (Planet_eqb (planet p) space); reflexivity.
Qed.

Lemma readout_matches_solver_targets_witness :
  exists r,
    App_physics (mkProps 20 true earth 70 (8 / 10) 2 false) = Some r
    /\ clampedLagAngle (mkProps 20 true earth 70 (8 / 10) 2 false) * (180 / PI)
       = Rmin (report_inertialLagAngle r) 30.
Proof.
  assert (Hm : BOX_MASS + personMass (mkProps 20 true earth 70 (8 / 10) 2 false) <> 0)
    by (unfold BOX_MASS; simpl; lra).
  eexists. split.
  - exact (App_physics_value _ Hm).
  - refine (proj2 (readout_matches_solver_targets _ _ (App_physics_value _ Hm)
                     eq_refl _)).
    simpl. lra.
Defined.

(** The read-out of the hinged [App] as a plain value. *)
Lemma Hinge_App_physics_value (r0 : R) (e : Planet) :
  let g := Hinge.PLANET_CONFIGS_gravity e in
  let ca := ((r0 * 2 * PI) / 60) ^ 2 * Hinge.PHYSICS_ARM_LENGTH in
  Hinge.App_physics r0 e
  = Some (Hinge.mkReport ca (sqrt (ca ^ 2 + g ^ 2))
            (Rmin (if Rlt_dec 0 g then atan (ca / g) * (180 / PI)
                   else if Rlt_dec 0 ca then Hinge.PHYSICS_MAX_HINGE_ANGLE else 0)
                  Hinge.PHYSICS_MAX_HINGE_ANGLE)
            (if Rlt_dec 0 g then atan (ca / g)
             else if Rlt_dec 0 ca then PI / 2 else 0)).
Proof.
  cbv zeta.
  assert (Hpi : PI <> 0) by (pose proof PI_RGT_0; lra).
  unfold Hinge.App_physics.
  rewrite (checked_div_some _ 60) by lra. cbn [bind].
  destruct (Rlt_dec 0 (Hinge.PLANET_CONFIGS_gravity e)) as [Hg | Hg].
  - rewrite (checked_div_some _ (Hinge.PLANET_CONFIGS_gravity e)) by lra.
    rewrite (checked_div_some 180 PI Hpi). reflexivity.
  - reflexivity.
Qed.

Lemma Hinge_gravity (e : Planet) :
  Hinge.PLANET_CONFIGS_gravity e = PLANET_DATA_gravity e.
Proof. destruct e; reflexivity. Qed.

Lemma Hinge_ca (r0 : R) :
  ((r0 * 2 * PI) / 60) ^ 2 * Hinge.PHYSICS_ARM_LENGTH = Spec.centrifugalAccel r0
  /\ 0 <= Spec.centrifugalAccel r0.
Proof.
  unfold Spec.centrifugalAccel, Hinge.PHYSICS_ARM_LENGTH. split.
  - unfold Rsqr. simpl. ring.
  - pose proof (Rle_0_sqr (r0 * 2 * PI / 60)). lra.
Qed.

(** X17: while rotating, the two implementations report the same
    centrifugal acceleration and the same combined gravity, for every
    rate and environment and every positive total mass. *)
Theorem readouts_agree_while_rotating (p : Props) :
  isRotating p = true -> 0 < BOX_MASS + personMass p ->
  exists r1 r2,
    App_physics p = Some r1
    /\ Hinge.App_physics (rpm p) (planet p) = Some r2
    /\ report_centrifugalAcceleration r1 = Hinge.report_centrifugalAcceleration r2
    /\ report_totalGravity r1 = Hinge.report_totalGravity r2.
Proof.
  intros Hact HM.
  assert (Hm : BOX_MASS + personMass p <> 0) by lra.
  pose proof (App_physics_value p Hm) as H1. cbv zeta in H1.
  pose proof (Hinge_App_physics_value (rpm p) (planet p)) as H2. cbv zeta in H2.
  eexists. eexists. split; [exact H1 | split; [exact H2 |]].
  cbn [report_centrifugalAcceleration report_totalGravity
         Hinge.report_centrifugalAcceleration Hinge.report_totalGravity].
  rewrite Hact.
  destruct (Hinge_ca (rpm p)) as [Hca Hca0]. rewrite Hca.
  change (Hinge.PLANET_CONFIGS_gravity (planet p))
    with (PLANET_DATA_gravity (planet p)).
  rewrite centrifugalAcceleration_spec.
  set (ca := Spec.centrifugalAccel (rpm p)) in *.
  set (M := BOX_MASS + personMass p) in *.
  split; [reflexivity |].
  destruct (Planet_eqb (planet p) space) eqn:E.
  - apply Planet_eqb_space in E. rewrite E. cbn [PLANET_DATA_gravity].
    replace (ca ^ 2 + 0 ^ 2) with (ca * ca) by (simpl; ring).
    rewrite sqrt_square by assumption. field. exact Hm.
  - set (g := PLANET_DATA_gravity (planet p)).
    replace (M * ca * (M * ca) + M * g * (M * g))
      with ((M * M) * (ca ^ 2 + g ^ 2)) by (simpl; ring).
    assert (Hs : 0 <= ca ^ 2 + g ^ 2).
    { simpl. pose proof (Rle_0_sqr ca). pose proof (Rle_0_sqr g).
      unfold Rsqr in *. lra. }
    rewrite sqrt_mult by (try assumption; nra).
    rewrite sqrt_square by lra. field. exact Hm.
Qed.

Lemma readouts_agree_while_rotating_witness :
  exists r1 r2,
    App_physics (mkProps 20 true earth 70 (8 / 10) 2 false) = Some r1
    /\ Hinge.App_physics 20 earth = Some r2
    /\ report_centrifugalAcceleration r1 = Hinge.report_centrifugalAcceleration r2
    /\ report_totalGravity r1 = Hinge.report_totalGravity r2.
Proof.
  refine (readouts_agree_while_rotating (mkProps 20 true earth 70 (8 / 10) 2 false) _ _).
  - reflexivity.
  - unfold BOX_MASS. simpl. lra.
Defined.



(** ** The hinged read-out *)

Lemma atan_le (u v : R) : u <= v -> atan u <= atan v.
Proof.
  intros [Hlt | ->]; [left; now apply atan_increasing | right; reflexivity].
Qed.

Lemma atan_le_inv (u v : R) : atan u <= atan v -> u <= v.
Proof.
  intros H. destruct (Rle_lt_dec u v) as [Hle | Hlt]; [exact Hle |].
  apply atan_increasing in Hlt. lra.
Qed.

Lemma atan_sqrt3 : atan (sqrt 3) = PI / 3.
Proof.
  rewrite <- tan_PI3. apply atan_tan. pose proof PI_RGT_0. split; lra.
Qed.

Lemma Hinge_gravity_cases (e : Planet) :
  (e = space /\ Hinge.PLANET_CONFIGS_gravity e = 0)
  \/ (e <> space /\ 0 < Hinge.PLANET_CONFIGS_gravity e).
Proof.
  destruct e; [right | right | right | left]; split;
    try discriminate; try reflexivity;
    unfold Hinge.PLANET_CONFIGS_gravity, Hinge.PHYSICS_EARTH_GRAVITY,
      Hinge.PHYSICS_MOON_GRAVITY, Hinge.PHYSICS_MARS_GRAVITY; lra.
Qed.

(** X19: the hinged read-out never meets a zero divisor, whatever the rate
    (negative ones included) and the environment; its hinge angle lies in
    [0, 60] degrees and its gravity angle in [0, PI/2]. *)
Theorem hinge_readout_bounded (r0 : R) (e : Planet) :
  exists r,
    Hinge.App_physics r0 e = Some r
    /\ 0 <= Hinge.report_centrifugalAcceleration r
    /\ 0 <= Hinge.report_hingeAngle r <= 60
    /\ 0 <= Hinge.report_gravityAngle r <= PI / 2.
Proof.
  pose proof (Hinge_App_physics_value r0 e) as Hv. cbv zeta in Hv.
  eexists. split; [exact Hv |].
  cbn [Hinge.report_centrifugalAcceleration Hinge.report_hingeAngle
         Hinge.report_gravityAngle].
  destruct (Hinge_ca r0) as [-> Hca]. pose proof PI_RGT_0 as Hpi.
  set (ca := Spec.centrifugalAccel r0) in *.
  unfold Hinge.PHYSICS_MAX_HINGE_ANGLE.
  split; [exact Hca |].
  destruct (Rlt_dec 0 (Hinge.PLANET_CONFIGS_gravity e)) as [Hg | Hg].
  - pose proof (atan_ratio_bounds ca _ Hca Hg) as Hb.
    assert (Hdeg : 0 < 180 / PI)
      by (apply Rmult_lt_0_compat; [lra | now apply Rinv_0_lt_compat]).
    split; [split; [apply Rmin_glb; [nra | lra] | apply Rmin_r] | lra].
  - destruct (Rlt_dec 0 ca).
    + split; [split; [apply Rmin_glb; lra | apply Rmin_r] | lra].
    + split; [split; [apply Rmin_glb; lra | apply Rmin_r] | lra].
Qed.

(** X21: under gravity the hinge angle of the read-out reaches its limit
    of 60 degrees exactly when the centrifugal acceleration is at least
    sqrt 3 times the gravity of the environment. *)
Theorem hinge_saturates_at_sqrt3_g (r0 : R) (e : Planet) (r : Hinge.Report) :
  e <> space -> Hinge.App_physics r0 e = Some r ->
  (Hinge.report_hingeAngle r = 60
   <-> sqrt 3 * Hinge.PLANET_CONFIGS_gravity e
       <= Hinge.report_centrifugalAcceleration r).
Proof.
  intros He Hr.
  pose proof (Hinge_App_physics_value r0 e) as Hv. cbv zeta in Hv.
  rewrite Hv in Hr.
  assert (Er : forall a b : Hinge.Report, Some a = Some b -> a = b)
    by (intros a b H; congruence).
  apply Er in Hr. subst r. clear Er.
  cbn [Hinge.report_hingeAngle Hinge.report_centrifugalAcceleration].
  destruct (Hinge_gravity_cases e) as [[Hs _] | [_ Hg]]; [contradiction |].
  set (g := Hinge.PLANET_CONFIGS_gravity e) in *.
  set (ca := (r0 * 2 * PI / 60) ^ 2 * Hinge.PHYSICS_ARM_LENGTH).
  destruct (Rlt_dec 0 g) as [_ | Hn]; [| contradiction].
  unfold Hinge.PHYSICS_MAX_HINGE_ANGLE.
  pose proof PI_RGT_0 as Hpi.
  assert (Hdeg : 0 < 180 / PI)
    by (apply Rmult_lt_0_compat; [lra | now apply Rinv_0_lt_compat]).
  assert (Hscale : forall a, 60 <= a * (180 / PI) <-> PI / 3 <= a).
  { intros a. replace 60 with (PI / 3 * (180 / PI)) at 1 by (field; lra).
    split; intros H; [apply Rmult_le_reg_r in H | apply Rmult_le_compat_r]; lra. }
  assert (Hq : PI / 3 <= atan (ca / g) <-> sqrt 3 * g <= ca).
  { rewrite <- atan_sqrt3. split.
    - intros H. apply atan_le_inv in H.
      apply Rmult_le_compat_r with (r := g) in H; [| lra].
      unfold Rdiv in H. rewrite Rmult_assoc, Rinv_l, Rmult_1_r in H by lra. exact H.
    - intros H. apply atan_le.
      apply Rmult_le_reg_r with g; [exact Hg |].
      unfold Rdiv. rewrite Rmult_assoc, Rinv_l, Rmult_1_r by lra. exact H. }
  rewrite <- Hq, <- Hscale. unfold Rmin.
  destruct (Rle_dec (atan (ca / g) * (180 / PI)) 60); split; intros H; lra.
Qed.

Lemma hinge_saturates_at_sqrt3_g_witness :
  exists r,
    Hinge.App_physics 0 earth = Some r
    /\ (Hinge.report_hingeAngle r = 60
        <-> sqrt 3 * Hinge.PLANET_CONFIGS_gravity earth
            <= Hinge.report_centrifugalAcceleration r).
Proof.
  eexists. split.
  - exact (Hinge_App_physics_value 0 earth).
  - refine (hinge_saturates_at_sqrt3_g 0 earth _ _ (Hinge_App_physics_value 0 earth)).
    discriminate.
Defined.

(** X22: turning the rate up never lowers what the hinged read-out shows:
    for rates 0 <= r1 <= r2 in the same environment the centrifugal
    acceleration, the combined gravity, the hinge angle and the gravity
    angle at r2 are at least those at r1. *)
Theorem hinge_readout_monotone (r1 r2 : R) (e : Planet) :
  0 <= r1 <= r2 ->
  exists a b,
    Hinge.App_physics r1 e = Some a
    /\ Hinge.App_physics r2 e = Some b
    /\ Hinge.report_centrifugalAcceleration a <= Hinge.report_centrifugalAcceleration b
    /\ Hinge.report_totalGravity a <= Hinge.report_totalGravity b
    /\ Hinge.report_hingeAngle a <= Hinge.report_hingeAngle b
    /\ Hinge.report_gravityAngle a <= Hinge.report_gravityAngle b.
Proof.
  intros Hr.
  pose proof (Hinge_App_physics_value r1 e) as H1. cbv zeta in H1.
  pose proof (Hinge_App_physics_value r2 e) as H2. cbv zeta in H2.
  eexists. eexists. split; [exact H1 | split; [exact H2 |]].
  cbn [Hinge.report_centrifugalAcceleration Hinge.report_totalGravity
         Hinge.report_hingeAngle Hinge.report_gravityAngle].
  pose proof PI_RGT_0 as Hpi.
  assert (Hw : 0 <= r1 * 2 * PI / 60 <= r2 * 2 * PI / 60) by (split; nra).
  set (w1 := r1 * 2 * PI / 60) in *. set (w2 := r2 * 2 * PI / 60) in *.
  assert (Hca : 0 <= w1 ^ 2 * Hinge.PHYSICS_ARM_LENGTH
                <= w2 ^ 2 * Hinge.PHYSICS_ARM_LENGTH).
  { unfold Hinge.PHYSICS_ARM_LENGTH. simpl. split; nra. }
  set (c1 := w1 ^ 2 * Hinge.PHYSICS_ARM_LENGTH) in *.
  set (c2 := w2 ^ 2 * Hinge.PHYSICS_ARM_LENGTH) in *.
  set (g := Hinge.PLANET_CONFIGS_gravity e).
  assert (Hdeg : 0 < 180 / PI)
    by (apply Rmult_lt_0_compat; [lra | now apply Rinv_0_lt_compat]).
  split; [lra | split].
  - apply sqrt_le_1_alt. simpl. nra.
  - unfold Hinge.PHYSICS_MAX_HINGE_ANGLE.
    destruct (Rlt_dec 0 g) as [Hg | Hg].
    + assert (Hq : atan (c1 / g) <= atan (c2 / g)).
      { apply atan_le. apply Rmult_le_compat_r; [| lra].
        left. now apply Rinv_0_lt_compat. }
      split; [apply Rle_min_compat_r; nra | exact Hq].
    + destruct (Rlt_dec 0 c1), (Rlt_dec 0 c2); try lra;
        (split; [apply Rle_min_compat_r; lra | lra]).
Qed.

Lemma hinge_readout_monotone_witness :
  exists a b,
    Hinge.App_physics 10 mars = Some a
    /\ Hinge.App_physics 30 mars = Some b
    /\ Hinge.report_centrifugalAcceleration a <= Hinge.report_centrifugalAcceleration b
    /\ Hinge.report_totalGravity a <= Hinge.report_totalGravity b
    /\ Hinge.report_hingeAngle a <= Hinge.report_hingeAngle b
    /\ Hinge.report_gravityAngle a <= Hinge.report_gravityAngle b.
Proof.
  refine (hinge_readout_monotone 10 30 mars _). lra.
Defined.

(** X23: the combined gravity of the hinged read-out is at least the
    larger of its two components, the centrifugal acceleration and the
    gravity of the environment, and at most their sum. *)
Theorem combined_gravity_between (r0 : R) (e : Planet) :
  exists r,
    Hinge.App_physics r0 e = Some r
    /\ Rmax (Hinge.report_centrifugalAcceleration r) (Hinge.PLANET_CONFIGS_gravity e)
       <= Hinge.report_totalGravity r
    /\ Hinge.report_totalGravity r
       <= Hinge.report_centrifugalAcceleration r + Hinge.PLANET_CONFIGS_gravity e.
Proof.
  pose proof (Hinge_App_physics_value r0 e) as Hv. cbv zeta in Hv.
  eexists. split; [exact Hv |].
  cbn [Hinge.report_centrifugalAcceleration Hinge.report_totalGravity].
  destruct (Hinge_ca r0) as [-> Hca].
  set (ca := Spec.centrifugalAccel r0) in *.
  set (g := Hinge.PLANET_CONFIGS_gravity e).
  assert (Hg : 0 <= g).
  { destruct (Hinge_gravity_cases e) as [[_ H0] | [_ H0]]; unfold g; lra. }
  assert (Hs : 0 <= ca ^ 2 + g ^ 2) by (simpl; nra).
  split.
  - apply Rmax_lub.
    + rewrite <- (sqrt_pow2 ca Hca) at 1. apply sqrt_le_1_alt. simpl. nra.
    + rewrite <- (sqrt_pow2 g Hg) at 1. apply sqrt_le_1_alt. simpl. nra.
  - rewrite <- (sqrt_pow2 (ca + g)) by lra. apply sqrt_le_1_alt. simpl. nra.
Qed.

(** ** The hinged scene *)

Lemma ArmSystem_run_app (fs gs : list HingeScene.ArmFrame) (s : HingeScene.ArmSystem) :
  HingeScene.ArmSystem_run (fs ++ gs) s
  = HingeScene.ArmSystem_run gs (HingeScene.ArmSystem_run fs s).
Proof. unfold HingeScene.ArmSystem_run. apply fold_left_app. Qed.

Lemma ArmSystem_accumulates (fs : list HingeScene.ArmFrame) (s : HingeScene.ArmSystem) :
  HingeScene.currentRotation (HingeScene.ArmSystem_run fs s)
  = HingeScene.currentRotation s + HingeScene.turned fs.
Proof.
  revert s. induction fs as [| f fs IH]; intros s.
  - simpl. ring.
  - unfold HingeScene.ArmSystem_run in *. cbn [fold_left HingeScene.turned].
    rewrite IH. unfold HingeScene.RotatingArmSystem_frame.
    destruct (HingeScene.arm_isRotating f); cbn [HingeScene.currentRotation]; ring.
Qed.

(** X24: in the hinged implementation the group of the arms is one frame
    behind its own counter: after a frame that rotates with the rotation
    not fixed, [rotation.y] is the angle accumulated over all frames
    before it (those spent with the rotation fixed included), while the
    counter already holds the angle including that frame. *)
Theorem arm_rotation_lags_one_frame
    (fs : list HingeScene.ArmFrame) (f : HingeScene.ArmFrame) :
  HingeScene.arm_isRotating f = true -> HingeScene.arm_rotationFixed f = false ->
  let s := HingeScene.ArmSystem_run (fs ++ [f]) HingeScene.ArmSystem_init in
  HingeScene.rotation_y s = HingeScene.turned fs
  /\ HingeScene.currentRotation s
     = HingeScene.turned fs
       + (HingeScene.arm_rpm f * 2 * PI) / 60 * HingeScene.arm_delta f.
Proof.
  intros Hrot Hfree. cbv zeta. rewrite ArmSystem_run_app.
  pose proof (ArmSystem_accumulates fs HingeScene.ArmSystem_init) as Hacc.
  cbn [HingeScene.ArmSystem_init HingeScene.currentRotation] in Hacc.
  unfold HingeScene.ArmSystem_run at 1 3. cbn [fold_left].
  unfold HingeScene.RotatingArmSystem_frame. rewrite Hrot, Hfree.
  cbn [HingeScene.rotation_y HingeScene.currentRotation].
  fold HingeScene.ArmSystem_init. rewrite Hacc. split; ring.
Qed.

Lemma arm_rotation_lags_one_frame_witness :
  HingeScene.rotation_y
    (HingeScene.ArmSystem_run
       ([HingeScene.mkArmFrame 30 true true 1]
        ++ [HingeScene.mkArmFrame 30 true false 1])
       HingeScene.ArmSystem_init)
  = HingeScene.turned [HingeScene.mkArmFrame 30 true true 1].
Proof.
  refine (proj1 (arm_rotation_lags_one_frame
                   [HingeScene.mkArmFrame 30 true true 1]
                   (HingeScene.mkArmFrame 30 true false 1) _ _));
    reflexivity.
Defined.

(** X25: while every frame either has the rotation fixed or does not
    rotate, [rotation.y] of the arms is never written: the arms stand
    still on screen, however long the counter keeps accumulating. *)
Theorem fixed_rotation_freezes_arms
    (fs : list HingeScene.ArmFrame) (s : HingeScene.ArmSystem) :
  Forall (fun f => HingeScene.arm_rotationFixed f = true
                   \/ HingeScene.arm_isRotating f = false) fs ->
  HingeScene.rotation_y (HingeScene.ArmSystem_run fs s) = HingeScene.rotation_y s
  /\ HingeScene.currentRotation (HingeScene.ArmSystem_run fs s)
     = HingeScene.currentRotation s + HingeScene.turned fs.
Proof.
  intros Hfs. split; [| apply ArmSystem_accumulates].
  revert s. induction Hfs as [| f fs Hf _ IH]; intros s; [reflexivity |].
  unfold HingeScene.ArmSystem_run in *. cbn [fold_left]. rewrite IH.
  unfold HingeScene.RotatingArmSystem_frame.
  destruct (HingeScene.arm_isRotating f) eqn:Er; [| reflexivity].
  destruct Hf as [Hfix | Hstop]; [| discriminate].
  rewrite Hfix. reflexivity.
Qed.

Lemma fixed_rotation_freezes_arms_witness :
  HingeScene.rotation_y
    (HingeScene.ArmSystem_run
       [HingeScene.mkArmFrame 30 true true 1; HingeScene.mkArmFrame 30 false false 1]
       HingeScene.ArmSystem_init)
  = 0.
Proof.
  refine (proj1 (fixed_rotation_freezes_arms
                   [HingeScene.mkArmFrame 30 true true 1;
                    HingeScene.mkArmFrame 30 false false 1]
                   HingeScene.ArmSystem_init _)).
  constructor; [left; reflexivity |].
  constructor; [right; reflexivity | constructor].
Defined.

(** X26: after Reset the hinged simulator is at rest in every respect: not
    rotating, rate 0, a read-out with no centrifugal acceleration, hinge
    and gravity angle 0 and the bare gravity of the environment, and arms
    that no frame moves, not even after Start, until the rate is raised. *)
Theorem reset_brings_to_rest (a : HingeScene.AppState) :
  let a' := HingeScene.handleReset a in
  HingeScene.isRotating a' = false
  /\ HingeScene.rpm a' = 0
  /\ (exists r,
        Hinge.App_physics (HingeScene.rpm a') (HingeScene.planet a') = Some r
        /\ Hinge.report_centrifugalAcceleration r = 0
        /\ Hinge.report_hingeAngle r = 0
        /\ Hinge.report_gravityAngle r = 0
        /\ Hinge.report_totalGravity r
           = Hinge.PLANET_CONFIGS_gravity (HingeScene.planet a))
  /\ (forall delta s,
        HingeScene.RotatingArmSystem_frame (HingeScene.App_armFrame a' delta) s = s)
  /\ (forall delta s,
        HingeScene.currentRotation
          (HingeScene.RotatingArmSystem_frame
             (HingeScene.App_armFrame (HingeScene.handleStart a') delta) s)
        = HingeScene.currentRotation s).
Proof.
  cbv zeta. unfold HingeScene.handleReset, HingeScene.handleStart,
    HingeScene.App_armFrame.
  cbn [HingeScene.rpm HingeScene.isRotating HingeScene.planet
         HingeScene.numHabitats HingeScene.rotationFixed].
  split; [reflexivity | split; [reflexivity | split; [| split]]].
  - pose proof (Hinge_App_physics_value 0 (HingeScene.planet a)) as Hv.
    cbv zeta in Hv. eexists. split; [exact Hv |].
    cbn [Hinge.report_centrifugalAcceleration Hinge.report_hingeAngle
           Hinge.report_gravityAngle Hinge.report_totalGravity].
    pose proof PI_RGT_0 as Hpi.
    assert (Hca : (0 * 2 * PI / 60) ^ 2 * Hinge.PHYSICS_ARM_LENGTH = 0)
      by (unfold Hinge.PHYSICS_ARM_LENGTH; field).
    rewrite Hca.
    set (g := Hinge.PLANET_CONFIGS_gravity (HingeScene.planet a)).
    assert (Hg : 0 <= g).
    { destruct (Hinge_gravity_cases (HingeScene.planet a)) as [[_ H0] | [_ H0]];
        unfold g; lra. }
    unfold Hinge.PHYSICS_MAX_HINGE_ANGLE.
    split; [reflexivity |].
    destruct (Rlt_dec 0 g) as [Hpos | Hnpos].
    + unfold Rdiv at 1 3. rewrite !Rmult_0_l, atan_0, Rmult_0_l.
      rewrite Rmin_left by lra.
      split; [reflexivity | split; [reflexivity |]].
      replace (0 ^ 2 + g ^ 2) with (g ^ 2) by (simpl; ring). now apply sqrt_pow2.
    + destruct (Rlt_dec 0 0) as [H00 | _]; [lra |].
      rewrite Rmin_left by lra.
      split; [reflexivity | split; [reflexivity |]].
      replace (0 ^ 2 + g ^ 2) with (g ^ 2) by (simpl; ring). now apply sqrt_pow2.
  - intros delta s. reflexivity.
  - intros delta s. unfold HingeScene.RotatingArmSystem_frame.
    cbn [HingeScene.arm_isRotating HingeScene.arm_rpm HingeScene.arm_delta
           HingeScene.currentRotation]. field.
Qed.

(** X28: the arrow a hinged habitat draws for the combined gravity points
    along (sin gravityAngle, -cos gravityAngle, 0) and is exactly
    min(0.3 * totalGravity / 10, 2) long, so never longer than 2, for
    every non-negative combined gravity. *)
Theorem gravity_arrow_length (gravityAngle totalGravity : R) :
  0 <= totalGravity ->
  let '(ex, ey, ez) := HingeScene.Habitat_gravity_arrow gravityAngle totalGravity in
  sqrt (ex * ex + ey * ey + ez * ez) = Rmin (totalGravity / 10 * (3 / 10)) 2
  /\ sqrt (ex * ex + ey * ey + ez * ez) <= 2
  /\ ex = sin gravityAngle * Rmin (totalGravity / 10 * (3 / 10)) 2
  /\ ey = - cos gravityAngle * Rmin (totalGravity / 10 * (3 / 10)) 2
  /\ ez = 0.
Proof.
  intros Htg. unfold HingeScene.Habitat_gravity_arrow, HingeScene.endPosition,
    HingeScene.arrowLength.
  set (L := Rmin (totalGravity / 10 * (3 / 10)) 2).
  assert (HL : 0 <= L <= 2).
  { unfold L. split; [apply Rmin_glb; lra | apply Rmin_r]. }
  pose proof (sin2_cos2 gravityAngle) as Hsc. unfold Rsqr in Hsc.
  set (c := cos gravityAngle) in *. set (sn := sin gravityAngle) in *.
  assert (Hsq : (0 + sn * L) * (0 + sn * L) + (0 + - c * L) * (0 + - c * L)
                + (0 + 0 * L) * (0 + 0 * L) = L * L) by nra.
  rewrite Hsq, sqrt_square by lra.
  repeat split; try lra; ring.
Qed.

Lemma gravity_arrow_length_witness :
  let '(ex, ey, ez) := HingeScene.Habitat_gravity_arrow 0 100 in
  sqrt (ex * ex + ey * ey + ez * ez) <= 2.
Proof.
  pose proof (gravity_arrow_length 0 100) as H.
  destruct (HingeScene.Habitat_gravity_arrow 0 100) as [[ex ey] ez].
  refine (proj1 (proj2 (H _))). lra.
Defined.

(** ** The hanging box of the multi-habitat simulator *)

(** X29: the point on the ceiling of the box where the arm is fixed sits
    exactly at the tip of the connecting arm for the sphere at every size,
    but for the cube and the rectangle only at boxSize = 1: the group of
    the box is hung at the unscaled half height 0.6 while the ceiling is at
    the scaled one, which puts the point 0.6 * (boxSize - 1) above the
    tip. *)
Theorem box_meets_arm_tip (connectingArmLength boxSize : R) (t : BoxType) :
  boxGroup_y connectingArmLength t boxSize + connectionPoint_y t boxSize
  - armTip_y connectingArmLength
  = match t with
    | sphere => 0
    | _ => 6 / 10 * (boxSize - 1)
    end
  /\ (boxGroup_y connectingArmLength t boxSize + connectionPoint_y t boxSize
      = armTip_y connectingArmLength
      <-> t = sphere \/ boxSize = 1).
Proof.
  unfold boxGroup_y, connectionPoint_y, armTip_y, boxDimensions, dim1.
  destruct t; cbn [BOX_TYPES_dimensions fst snd]; split; try field;
    split; intros H;
    try (right; lra); try (left; reflexivity);
    try (destruct H as [H | H]; [discriminate | subst boxSize; field]);
    try field.
Qed.

(** ** The arrows of the habitat *)

(** X30: after every frame of a habitat the gravity arrow is visible
    exactly when the environment has gravity, and the centrifugal arrow is
    scaled by a factor between 0 and 3. *)
Theorem arrows_after_frame (p : Props) (dt t : R) (b : BoxState) :
  let b' := BoxHabitat_frame p dt t b in
  (gravityArrow_visible b' = true <-> planet p <> space)
  /\ 0 <= centrifugalArrow_scale_y b' <= 3.
Proof.
  cbv zeta.
  assert (Hvis : forall e, negb (Planet_eqb e space) = true <-> e <> space).
  { intros e. destruct e; simpl; split; (congruence || discriminate). }
  pose proof (centrifugalAcceleration_nonneg p) as Hca.
  unfold BoxHabitat_frame. cbv zeta.
  destruct (spinning p); [| destruct (Planet_eqb (planet p) space) eqn:E];
    cbn [gravityArrow_visible centrifugalArrow_scale_y].
  - split; [apply Hvis |].
    split; [apply Rmin_glb; [| lra] | apply Rmin_r].
    unfold GRAVITY_CONSTANTS_earth. apply Rmult_le_pos; [exact Hca | lra].
  - apply Planet_eqb_space in E. split; [| lra].
    split; [discriminate | intros H; contradiction].
  - split; [| lra]. split; [| reflexivity].
    intros _ H. apply Planet_eqb_space in H. congruence.
Qed.
